(** * Subway transfer route search: a shallow embedding of [project.py]

    The development follows the Python source: [Station] objects live in an
    arena (Python object identity is an index into it), [SubwaySystem] keeps
    the [stations] dictionary and the insertion-ordered [lines] dictionary,
    [load_from_csv] builds both and links [prev]/[next], and [find_route]
    runs the recursive [dfs] over an explicit search state. *)

From stdpp Require Import base gmap strings list pretty.

Set Warnings "-clear-no-such-hyp".

(** ** Outcomes of Python code: a value, a raised exception, or (only in the
    model) an exhausted recursion budget. *)

Inductive exn := KeyError | IndexError.

Inductive outcome (A : Type) : Type :=
  | Ok (a : A)
  | Raise (e : exn)
  | OutOfFuel.
Arguments Ok {A} a.
Arguments Raise {A} e.
Arguments OutOfFuel {A}.

Definition outcome_bind {A B} (f : A → outcome B) (m : outcome A)
  : outcome B :=
  match m with
  | Ok a => f a
  | Raise e => Raise e
  | OutOfFuel => OutOfFuel
  end.

#[global] Instance outcome_mbind : MBind outcome := @outcome_bind.
#[global] Instance outcome_mret : MRet outcome := @Ok.

(** A Python [for x in l: body] over a state that the body may abort. *)
Fixpoint for_each {A S} (body : A → S → outcome S) (l : list A) (st : S)
  : outcome S :=
  match l with
  | [] => Ok st
  | x :: l' => st' ← body x st; for_each body l' st'
  end.

(** ** Data model *)

(** A reference to a [Station] object: its position in the arena. *)
Abbreviation ref := nat (only parsing).

Record Station := mkStation {
  id : Z;
  line : string;
  name : string;
  transfer_ids : list Z;
  prev : option ref;
  next : option ref
}.

#[global] Instance Station_inhabited : Inhabited Station :=
  populate (mkStation 0 "" "" [] None None).

(** An insertion-ordered dictionary with string keys (Python [dict]). *)
Section dict.
Context {V : Type}.

Fixpoint dict_get (d : list (string * V)) (k : string) : option V :=
  match d with
  | [] => None
  | (k', v) :: d' => if decide (k' = k) then Some v else dict_get d' k
  end.

Fixpoint dict_set (d : list (string * V)) (k : string) (v : V)
  : list (string * V) :=
  match d with
  | [] => [(k, v)]
  | (k', v') :: d' =>
      if decide (k' = k) then (k', v) :: d' else (k', v') :: dict_set d' k v
  end.

Fixpoint dict_alter (f : V → V) (k : string) (d : list (string * V))
  : list (string * V) :=
  match d with
  | [] => []
  | (k', v') :: d' =>
      if decide (k' = k) then (k', f v') :: d'
      else (k', v') :: dict_alter f k d'
  end.
End dict.

Record SubwaySystem := mkSubway {
  objs : list Station;             (* every Station object, by allocation *)
  stations : gmap Z ref;           (* self.stations *)
  lines : list (string * list ref) (* self.lines, in insertion order *)
}.

(** [SubwaySystem.__init__] *)
Definition init : SubwaySystem := mkSubway [] ∅ [].

(** The object behind a reference.  Python references never dangle: the
    references of a loaded network are all in range ([load_wf] below). *)
Definition obj (self : SubwaySystem) (r : ref) : Station := objs self !!! r.

(** ** [load_from_csv] *)

(** One data row after the field conversions of lines 65-69:
    [int(row[0])], [row[1]], [row[2]] and the ['/']-separated [row[3]]. *)
Record Row := mkRow {
  row_id : Z;
  row_line : string;
  row_name : string;
  row_transfers : list Z
}.

(** Body of the loop over the rows (lines 72-78). *)
Definition add_row (self : SubwaySystem) (row : Row) : SubwaySystem :=
  let station :=
    mkStation (row_id row) (row_line row) (row_name row) (row_transfers row)
              None None in
  let r := length (objs self) in
  let lines1 :=
    match dict_get (lines self) (row_line row) with
    | None => dict_set (lines self) (row_line row) []
    | Some _ => lines self
    end in
  mkSubway (objs self ++ [station])
           (<[row_id row := r]> (stations self))
           (dict_alter (λ l, l ++ [r]) (row_line row) lines1).

Definition set_prev (r p : ref) (os : list Station) : list Station :=
  alter (λ s, mkStation (id s) (line s) (name s) (transfer_ids s)
                        (Some p) (next s)) r os.

Definition set_next (r n : ref) (os : list Station) : list Station :=
  alter (λ s, mkStation (id s) (line s) (name s) (transfer_ids s)
                        (prev s) (Some n)) r os.

(** Body of the inner loop [for i in range(len(line_stations))]. *)
Definition link_at (line_stations : list ref) (os : list Station) (i : nat)
  : list Station :=
  let os1 :=
    if decide (0 < i)
    then set_prev (line_stations !!! i) (line_stations !!! (i - 1)) os
    else os in
  if decide (i < length line_stations - 1)
  then set_next (line_stations !!! i) (line_stations !!! (i + 1)) os1
  else os1.

Definition link_line (os : list Station) (line_stations : list ref)
  : list Station :=
  foldl (link_at line_stations) os (seq 0 (length line_stations)).

(** [for line_stations in self.lines.values()] *)
Definition link_all (os : list Station) (ls : list (string * list ref))
  : list Station :=
  foldl link_line os (ls.*2).

Definition load_from_csv (self : SubwaySystem) (rows : list Row)
  : SubwaySystem :=
  let s := foldl add_row self rows in
  mkSubway (link_all (objs s) (lines s)) (stations s) (lines s).
Arguments load_from_csv : simpl never.

(** ** [find_route] *)

Abbreviation Path := (list (ref * bool)) (only parsing).

(** The variables shared by [get_path_signature] and [dfs]. *)
Record SearchState := mkSearchState {
  visited : gset Z;
  current_path : Path;
  all_paths : list Path;
  path_signatures : gset string
}.

Definition init_search : SearchState := mkSearchState ∅ [] [] ∅.

(** Loop body of [get_path_signature]; [processed_ids[-1]] and
    [processed_ids[-2]] are only read when the list has two entries. *)
Definition sig_step (self : SubwaySystem) (processed_ids : list Z)
    (e : ref * bool) : list Z :=
  let sid := id (obj self e.1) in
  let n := length processed_ids in
  if bool_decide (n < 2)
     || bool_decide (sid ≠ processed_ids !!! (n - 1))
     || bool_decide (sid ≠ processed_ids !!! (n - 2))
  then processed_ids ++ [sid]
  else processed_ids.

Definition processed (self : SubwaySystem) (path : Path) : list Z :=
  foldl (sig_step self) [] path.

Definition get_path_signature (self : SubwaySystem) (path : Path) : string :=
  String.concat "," (pretty <$> processed self path).

(** Lines 146-147. *)
Definition enter (self : SubwaySystem) (current : ref) (is_transfer : bool)
    (st : SearchState) : SearchState :=
  mkSearchState ({[id (obj self current)]} ∪ visited st)
           (current_path st ++ [(current, is_transfer)])
           (all_paths st) (path_signatures st).

(** Lines 150-153. *)
Definition accept (self : SubwaySystem) (st : SearchState) : SearchState :=
  let path_sig := get_path_signature self (current_path st) in
  if decide (path_sig ∈ path_signatures st) then st
  else mkSearchState (visited st) (current_path st)
                (all_paths st ++ [current_path st])
                ({[path_sig]} ∪ path_signatures st).

(** Lines 187-188: [list.pop] and [set.remove] raise on a missing element. *)
Definition leave (self : SubwaySystem) (current : ref) (st : SearchState)
  : outcome SearchState :=
  match current_path st with
  | [] => Raise IndexError
  | _ :: _ =>
      if decide (id (obj self current) ∈ visited st)
      then Ok (mkSearchState (visited st ∖ {[id (obj self current)]})
                        (removelast (current_path st))
                        (all_paths st) (path_signatures st))
      else Raise KeyError
  end.

(** Loop body of lines 165-171, on the pair
    [(target_line_transfers, other_transfers)]. *)
Definition classify (self : SubwaySystem) (target : ref) (vis : gset Z)
    (transfer_id : Z) (acc : list ref * list ref)
  : outcome (list ref * list ref) :=
  match stations self !! transfer_id with
  | None => Raise KeyError
  | Some r =>
      if decide (id (obj self r) ∈ vis) then Ok acc
      else if decide (line (obj self r) = line (obj self target))
           then Ok (acc.1 ++ [r], acc.2)
           else Ok (acc.1, acc.2 ++ [r])
  end.

Definition split_transfers (self : SubwaySystem) (target : ref)
    (vis : gset Z) (ts : list Z) : outcome (list ref * list ref) :=
  for_each (classify self target vis) ts ([], []).

(** Loop body of [for next_station in [current.prev, current.next]]. *)
Definition try_neighbour (self : SubwaySystem)
    (rec : ref → bool → SearchState → outcome SearchState)
    (next_station : option ref) (st : SearchState) : outcome SearchState :=
  match next_station with
  | Some r =>
      if decide (id (obj self r) ∈ visited st) then Ok st else rec r false st
  | None => Ok st
  end.

(** One activation of [dfs]; [rec] stands for the recursive calls. *)
Definition dfs_body (rec : ref → bool → SearchState → outcome SearchState)
    (self : SubwaySystem) (target : ref)
    (current : ref) (is_transfer : bool) (st : SearchState)
  : outcome SearchState :=
  let cur := obj self current in
  let tgt := obj self target in
  if decide (id cur ∈ visited st) then Ok st
  else
    let st1 := enter self current is_transfer st in
    st2 ←
      (if decide (id cur = id tgt) then Ok (accept self st1)
       else if decide (line cur = line tgt) then
         for_each (try_neighbour self rec) [prev cur; next cur] st1
       else
         '(target_line_transfers, other_transfers) ←
           split_transfers self target (visited st1) (transfer_ids cur);
         match target_line_transfers with
         | _ :: _ => for_each (λ r, rec r true) target_line_transfers st1
         | [] =>
             st' ← for_each (λ r, rec r true) other_transfers st1;
             for_each (try_neighbour self rec) [prev cur; next cur] st'
         end);
    leave self current st2.

(** [dfs], with the depth of the Python call stack bounded by [fuel]. *)
Fixpoint dfs (fuel : nat) (self : SubwaySystem) (target : ref)
    (current : ref) (is_transfer : bool) (st : SearchState)
  : outcome SearchState :=
  match fuel with
  | O => OutOfFuel
  | S fuel' => dfs_body (dfs fuel' self target) self target
                        current is_transfer st
  end.

(** [next((s for s in stops if s.name == wanted), None)] *)
Definition first_named (self : SubwaySystem) (stops : list ref)
    (wanted : string) : option ref :=
  List.find (λ r, bool_decide (name (obj self r) = wanted)) stops.

Definition find_route_with (fuel : nat) (self : SubwaySystem)
    (start_line start_station end_line end_station : string)
  : outcome (list Path) :=
  match dict_get (lines self) start_line with
  | None => Raise KeyError
  | Some start_stops =>
      let start := first_named self start_stops start_station in
      match dict_get (lines self) end_line with
      | None => Raise KeyError
      | Some end_stops =>
          let end_ := first_named self end_stops end_station in
          match start, end_ with
          | Some s, Some e =>
              st ← dfs fuel self e s false init_search;
              Ok (all_paths st)
          | _, _ => Ok []
          end
      end
  end.

(** [find_route] with a budget of one stack level per Station object (and
    one to spare), which the search never exceeds. *)
Definition find_route (self : SubwaySystem)
    (start_line start_station end_line end_station : string)
  : outcome (list Path) :=
  find_route_with (S (length (objs self))) self
                  start_line start_station end_line end_station.

(** ** Example networks *)

(** The scenario network of the specification. *)
Definition scenario_rows : list Row :=
  [ mkRow 1 "A" "X" []; mkRow 2 "A" "Y" [4%Z]; mkRow 3 "A" "Z" [];
    mkRow 4 "B" "Y" [2%Z]; mkRow 5 "B" "W" [] ].

Definition scenario : SubwaySystem := load_from_csv init scenario_rows.

Definition path_ids (self : SubwaySystem) (p : Path) : list Z :=
  (λ e, id (obj self e.1)) <$> p.

(** Two records that share the id 1. *)
Definition duplicate_rows : list Row :=
  [ mkRow 1 "A" "X" []; mkRow 1 "A" "Y" [] ].

(** The object [load_from_csv] creates for a row (line 72). *)
Definition station_of (row : Row) : Station :=
  mkStation (row_id row) (row_line row) (row_name row) (row_transfers row)
            None None.

(** The system after the loop over the rows, before the links are set. *)
Definition rows_loaded (rows : list Row) : SubwaySystem :=
  foldl add_row init rows.

(** The stop a (line, name) pair denotes: the first stop of that name on
    the line; none when the line is unknown or holds no such stop. *)
Definition resolve (self : SubwaySystem) (line_name stop_name : string)
  : option ref :=
  stops ← dict_get (lines self) line_name;
  first_named self stops stop_name.

(** ** The signature as the specification words it

    Walk the ids in order; an id is dropped when the two preceding output
    entries both equal it; the output is joined in order.  The output list
    is kept newest-first here, so the two preceding entries are its first
    two elements. *)
Fixpoint capped_walk (newest_first : list Z) (ids : list Z) : list Z :=
  match ids with
  | [] => reverse newest_first
  | i :: rest =>
      match newest_first with
      | a :: b :: _ =>
          if decide (a = i ∧ b = i) then capped_walk newest_first rest
          else capped_walk (i :: newest_first) rest
      | _ => capped_walk (i :: newest_first) rest
      end
  end.

Definition reference_signature (ids : list Z) : string :=
  String.concat "," (pretty <$> capped_walk [] ids).

(** ** The course of a search *)

(** [dfs] hands back [visited] and [current_path] as it found them. *)
Definition framed (st st' : SearchState) : Prop :=
  visited st' = visited st ∧ current_path st' = current_path st.

(** The ids of the stops of a path, as the [visited] set holds them. *)
Definition ids_of (self : SubwaySystem) (p : Path) : gset Z :=
  list_to_set (path_ids self p).

Definition on_target_line (self : SubwaySystem) (target r : ref) : Prop :=
  line (obj self r) = line (obj self target).

(** [r] is [self.stations[t]] for some [t] of [ts]. *)
Definition transfer_in (self : SubwaySystem) (ts : list Z) (r : ref) : Prop :=
  ∃ t, t ∈ ts ∧ stations self !! t = Some r.

(** An unvisited transfer station on the target line (lines 167-169). *)
Definition direct (self : SubwaySystem) (target : ref) (vis : gset Z)
    (ts : list Z) (r : ref) : Prop :=
  transfer_in self ts r ∧ (id (obj self r) ∉ vis)
  ∧ on_target_line self target r.

(** An unvisited transfer station on another line (lines 167-171). *)
Definition indirect (self : SubwaySystem) (target : ref) (vis : gset Z)
    (ts : list Z) (r : ref) : Prop :=
  transfer_in self ts r ∧ (id (obj self r) ∉ vis)
  ∧ ¬ on_target_line self target r.

Definition sequential (s : Station) (r : ref) : Prop :=
  prev s = Some r ∨ next s = Some r.

(** The recursive calls [dfs] makes while expanding [from], when [vis] is
    the visited set: the stop entered and its [is_transfer] flag. *)
Definition move (self : SubwaySystem) (target : ref) (vis : gset Z)
    (from : ref) (e : ref * bool) : Prop :=
  let s := obj self from in
  id s ≠ id (obj self target) ∧
  (id (obj self e.1) ∉ vis) ∧
  ((on_target_line self target from ∧ sequential s e.1 ∧ e.2 = false)
   ∨ (¬ on_target_line self target from
      ∧ direct self target vis (transfer_ids s) e.1 ∧ e.2 = true)
   ∨ (¬ on_target_line self target from
      ∧ (∀ r, ¬ direct self target vis (transfer_ids s) r)
      ∧ ((indirect self target vis (transfer_ids s) e.1 ∧ e.2 = true)
         ∨ (sequential s e.1 ∧ e.2 = false)))).

(** The values [current_path] takes during [dfs(start, target)]. *)
Inductive trail (self : SubwaySystem) (target start : ref) : Path → Prop :=
  | trail_start : trail self target start [(start, false)]
  | trail_move p from b e :
      trail self target start (p ++ [(from, b)]) →
      move self target (ids_of self (p ++ [(from, b)])) from e →
      trail self target start ((p ++ [(from, b)]) ++ [e]).

(** What [all_paths] may hold: a trail that ends on the target's id. *)
Definition arrived (self : SubwaySystem) (target start : ref) (p : Path)
  : Prop :=
  trail self target start p ∧
  ∃ e, last p = Some e ∧ id (obj self e.1) = id (obj self target).

(** What holds of the search state at every call of [dfs]. *)
Definition searching (self : SubwaySystem) (target start : ref)
    (st : SearchState) : Prop :=
  visited st = ids_of self (current_path st) ∧
  Forall (arrived self target start) (all_paths st).

(** What holds of the search state between the recursive calls made while
    the stop entered in [st1] is expanded. *)
Definition keeps (self : SubwaySystem) (target start : ref)
    (st1 s : SearchState) : Prop :=
  framed st1 s ∧ Forall (arrived self target start) (all_paths s).

(** [o2] is the outcome [o1], unless [o1] ran out of budget. *)
Definition settles {A} (o1 o2 : outcome A) : Prop :=
  o1 ≠ OutOfFuel → o2 = o1.

(** ** Well-formed networks *)

(** The fields of a Station that [load_from_csv] never reassigns. *)
Definition core (s : Station) : Z * string * string * list Z :=
  (id s, line s, name s, transfer_ids s).

(** Python references never dangle: every reference held by the system
    denotes an allocated object, line lists hold stops of their line and
    sequential links stay on one line. *)
Record wf (self : SubwaySystem) : Prop := {
  wf_stations : ∀ k r,
    stations self !! k = Some r → r < length (objs self);
  wf_lines : ∀ l rs r,
    dict_get (lines self) l = Some rs → r ∈ rs →
    r < length (objs self) ∧ line (obj self r) = l;
  wf_links : ∀ r p,
    sequential (obj self r) p →
    p < length (objs self) ∧ line (obj self p) = line (obj self r)
}.

(** [os] is [os0] with some links set, each to a stop of the same line. *)
Definition linked (os0 os : list Station) : Prop :=
  length os = length os0 ∧
  (∀ r, core (os !!! r) = core (os0 !!! r)) ∧
  (∀ r p, sequential (os !!! r) p →
          p < length os0 ∧ line (os0 !!! p) = line (os0 !!! r)).

Definition on_line (os0 : list Station) (l : string) (r : ref) : Prop :=
  r < length os0 ∧ line (os0 !!! r) = l.

(** The distinct stop ids of the network. *)
Definition all_ids (self : SubwaySystem) : gset Z :=
  list_to_set (id <$> objs self).

(** Every transfer id of every Station is a key of [self.stations]. *)
Definition resolvable (self : SubwaySystem) : Prop :=
  ∀ s t, s ∈ objs self → t ∈ transfer_ids s →
         is_Some (stations self !! t).

(** Every transfer id of a row is the id of some row. *)
Definition transfers_resolvable (rows : list Row) : Prop :=
  ∀ row t, row ∈ rows → t ∈ row_transfers row →
           ∃ row', row' ∈ rows ∧ row_id row' = t.

(** ** Definitions for the further properties *)

(** The positions, counted from [base], of the rows of line [l], in input
    order. *)
Fixpoint rows_of_line (l : string) (base : nat) (rows : list Row)
  : list ref :=
  match rows with
  | [] => []
  | row :: rows' =>
      if decide (row_line row = l)
      then base :: rows_of_line l (S base) rows'
      else rows_of_line l (S base) rows'
  end.

(** What the linking pass leaves in the Station at position [i] of a
    line. *)
Definition relinked (line_stations : list ref) (i : nat) (s : Station)
  : Station :=
  mkStation (id s) (line s) (name s) (transfer_ids s)
    (if decide (0 < i) then Some (line_stations !!! (i - 1)) else prev s)
    (if decide (i < length line_stations - 1)
     then Some (line_stations !!! (i + 1)) else next s).

(** The accepted paths have pairwise distinct signatures, all recorded in
    [path_signatures]. *)
Definition sigs_kept (self : SubwaySystem) (st : SearchState) : Prop :=
  NoDup (get_path_signature self <$> all_paths st) ∧
  ∀ p, p ∈ all_paths st → get_path_signature self p ∈ path_signatures st.

(** [any(s.name == wanted for s in stops)], the station check of [main]
    (lines 238 and 241). *)
Definition any_named (self : SubwaySystem) (stops : list ref)
    (wanted : string) : bool :=
  existsb (λ r, bool_decide (name (obj self r) = wanted)) stops.

(** A record whose transfer id 9 is the id of no record. *)
Definition broken_rows : list Row :=
  [ mkRow 1 "A" "X" [9%Z]; mkRow 2 "B" "Y" [] ].

(** A start with two transfers to the target line, one on each side of the
    target: two routes lead from "S" to "T". *)
Definition fork_rows : list Row :=
  [ mkRow 1 "A" "S" [10%Z; 11%Z];
    mkRow 10 "B" "P" []; mkRow 12 "B" "T" []; mkRow 11 "B" "Q" [] ].

(** The neighbour [o] is skipped by the loop over [current.prev] and
    [current.next] when [vis] is the visited set. *)
Definition blocked (self : SubwaySystem) (vis : gset Z) (o : option ref)
  : Prop :=
  ∀ r, o = Some r → id (obj self r) ∈ vis.

(** On the target line [dfs] only follows [prev] and [next].  [c] is a
    corridor from [cur]: the row of stops ahead of [cur] in one direction
    ([fwd]), all of them on the target line and unvisited, while the stop
    behind each of them ([back]) is absent or visited. *)
Fixpoint corridor (self : SubwaySystem) (target : ref)
    (fwd back : Station → option ref) (vis : gset Z) (cur : ref)
    (c : list ref) : Prop :=
  line (obj self cur) = line (obj self target) ∧
  (id (obj self cur) ∉ vis) ∧
  blocked self vis (back (obj self cur)) ∧
  match c with
  | [] => fwd (obj self cur) = None
  | r :: c' =>
      fwd (obj self cur) = Some r ∧
      corridor self target fwd back ({[id (obj self cur)]} ∪ vis) r c'
  end.

(** The stops after [cur] up to the first one that carries the target's
    id, if there is one in [cur :: c]. *)
Fixpoint ahead (self : SubwaySystem) (target : ref) (cur : ref)
    (c : list ref) : option (list ref) :=
  if decide (id (obj self cur) = id (obj self target)) then Some []
  else match c with
       | [] => None
       | r :: c' => cons r <$> ahead self target r c'
       end.

(** Lines 150-153 for the path [p]. *)
Definition noted (self : SubwaySystem) (p : list (ref * bool))
    (st : SearchState) : SearchState :=
  let path_sig := get_path_signature self p in
  if decide (path_sig ∈ path_signatures st) then st
  else mkSearchState (visited st) (current_path st)
                     (all_paths st ++ [p])
                     ({[path_sig]} ∪ path_signatures st).

(** The search state after [dfs(cur, target, b)] has walked the corridor
    [c]. *)
Definition walked (self : SubwaySystem) (target : ref) (cur : ref) (b : bool)
    (c : list ref) (st : SearchState) : SearchState :=
  match ahead self target cur c with
  | None => st
  | Some seg =>
      noted self (current_path st ++ (cur, b) :: ((λ r, (r, false)) <$> seg))
            st
  end.

(** The search state after the loop over [current.prev] and [current.next]
    has gone into the corridor [c]. *)
Definition walked_along (self : SubwaySystem) (target : ref) (c : list ref)
    (st : SearchState) : SearchState :=
  match c with
  | [] => st
  | r :: c' => walked self target r false c' st
  end.

(** * Properties *)

Section signature.
Variable self : SubwaySystem.

Lemma last_two (a b : Z) (l : list Z) :
  let out := reverse (a :: b :: l) in
  length out = S (S (length l)) ∧
  out !!! (length out - 1) = a ∧ out !!! (length out - 2) = b.
Proof.
  simpl. rewrite !reverse_cons, !length_app, length_reverse. simpl.
  split; [lia|].
  replace (length l + 1 + 1 - 1) with (length (reverse l ++ [b]) + 0)
    by (rewrite length_app, length_reverse; simpl; lia).
  replace (length l + 1 + 1 - 2) with (length (reverse l) + 0)
    by (rewrite length_reverse; lia).
  split.
  - by rewrite lookup_total_app_r, Nat.add_comm, Nat.add_sub by lia.
  - rewrite <- (assoc app).
    by rewrite lookup_total_app_r, Nat.add_comm, Nat.add_sub by lia.
Qed.

Lemma sig_step_newest_first (acc : list Z) (e : ref * bool) :
  sig_step self (reverse acc) e
  = reverse (match acc with
             | a :: b :: _ =>
                 if decide (a = id (obj self e.1) ∧ b = id (obj self e.1))
                 then acc else id (obj self e.1) :: acc
             | _ => id (obj self e.1) :: acc
             end).
Proof.
  unfold sig_step. destruct acc as [|a [|c acc]]; [done..|].
  destruct (last_two a c acc) as (Hlen & Ha & Hc).
  rewrite Ha, Hc, Hlen.
  case_decide; [|rewrite (reverse_cons _ (id _))];
    repeat case_bool_decide; simpl; try lia; naive_solver.
Qed.

Lemma processed_walk (path : Path) (newest_first : list Z) :
  foldl (sig_step self) (reverse newest_first) path
  = capped_walk newest_first (path_ids self path).
Proof.
  revert newest_first.
  induction path as [|e path IH]; intros acc; [done|].
  cbn [foldl]. rewrite sig_step_newest_first, IH.
  unfold path_ids. rewrite fmap_cons. cbn [capped_walk].
  destruct acc as [|a [|c acc]]; [done..|].
  by destruct (decide (a = id (obj self e.1) ∧ c = id (obj self e.1))).
Qed.
End signature.

(** ** The outcome monad and loops *)

Lemma bind_Ok {A B} (m : outcome A) (f : A → outcome B) (b : B) :
  (m ≫= f) = Ok b ↔ ∃ a, m = Ok a ∧ f a = Ok b.
Proof.
  destruct m as [a| |]; simpl; split; try naive_solver.
Qed.

Lemma for_each_inv {A S} (I : S → Prop) (body : A → S → outcome S)
    (l : list A) (st st' : S) :
  (∀ x s s', x ∈ l → I s → body x s = Ok s' → I s') →
  I st → for_each body l st = Ok st' → I st'.
Proof.
  revert st. induction l as [|x l IH]; intros st Hbody HI Hrun; simpl in *.
  - by simplify_eq.
  - apply bind_Ok in Hrun as (s1 & H1 & H2).
    apply (IH s1); [|by eapply Hbody; [left|..]|done].
    intros y s s' Hy. apply Hbody. by right.
Qed.

Section frame.
Variable self : SubwaySystem.
Variable target : ref.

Lemma accept_frame st : framed st (accept self st).
Proof. unfold accept, framed. by case_decide. Qed.

Lemma leave_enter current b st st' :
  id (obj self current) ∉ visited st →
  framed (enter self current b st) st' →
  ∃ st'', leave self current st' = Ok st'' ∧ framed st st''
          ∧ all_paths st'' = all_paths st'
          ∧ path_signatures st'' = path_signatures st'.
Proof.
  intros Hnew [Hv Hp]. unfold leave. rewrite Hp, Hv. simpl.
  destruct (current_path st ++ [(current, b)]) eqn:E.
  { by destruct (current_path st). }
  rewrite <- E. rewrite decide_True by set_solver.
  eexists. split; [done|]. split; [|done]. split; simpl.
  - set_solver.
  - by rewrite removelast_last.
Qed.

Section body.
Variable rec : ref → bool → SearchState → outcome SearchState.
Hypothesis rec_frame : ∀ r b s s', rec r b s = Ok s' → framed s s'.

Lemma try_neighbour_frame o s s' :
  try_neighbour self rec o s = Ok s' → framed s s'.
Proof.
  destruct o as [r|]; simpl; [case_decide|]; intros; simplify_eq;
    eauto; done.
Qed.

Lemma dfs_body_frame current b st st' :
  dfs_body rec self target current b st = Ok st' → framed st st'.
Proof.
  unfold dfs_body. case_decide as Hvis; [by intros [= <-]|].
  intros (st2 & Hbody & Hleave)%bind_Ok.
  assert (framed (enter self current b st) st2) as Hfr.
  { revert Hbody. set (st1 := enter self current b st).
    assert (∀ s, framed st1 s → ∀ nb s',
              for_each (try_neighbour self rec) nb s = Ok s' →
              framed st1 s') as Hnb.
    { intros s Hs nb s'. apply (for_each_inv (framed st1)); [|done].
      intros o s1 s2 _ [Hv Hp] [Hv' Hp']%try_neighbour_frame.
      split; congruence. }
    assert (∀ s, framed st1 s → ∀ (rs : list ref) s',
              for_each (λ r, rec r true) rs s = Ok s' →
              framed st1 s') as Htr.
    { intros s Hs rs s'. apply (for_each_inv (framed st1)); [|done].
      intros o s1 s2 _ [Hv Hp] [Hv' Hp']%rec_frame.
      split; congruence. }
    repeat case_decide.
    - intros [= <-]. apply accept_frame.
    - by apply Hnb.
    - intros ([tl ot] & _ & Hrun)%bind_Ok. destruct tl.
      + apply bind_Ok in Hrun as (s1 & H1 & H2).
        eapply Hnb; [|done]. by eapply Htr.
      + by eapply Htr. }
  destruct (leave_enter current b st st2 Hvis Hfr) as (s & Hs & ? & _).
  by replace st' with s by congruence.
Qed.
End body.

Lemma dfs_frame fuel current b st st' :
  dfs fuel self target current b st = Ok st' → framed st st'.
Proof.
  revert current b st st'. induction fuel as [|fuel IH]; [done|].
  intros current b st st'. simpl. by apply dfs_body_frame.
Qed.
End frame.

Section search.
Variable self : SubwaySystem.
Variable target : ref.
Variable start : ref.

Lemma ids_of_snoc p e :
  ids_of self (p ++ [e]) = {[id (obj self e.1)]} ∪ ids_of self p.
Proof.
  unfold ids_of, path_ids. rewrite fmap_app, list_to_set_app_L. simpl.
  set_solver.
Qed.

Lemma direct_cons vis t ts r :
  direct self target vis (t :: ts) r ↔
  (stations self !! t = Some r ∧ (id (obj self r) ∉ vis)
   ∧ on_target_line self target r)
  ∨ direct self target vis ts r.
Proof.
  unfold direct, transfer_in. split.
  - intros [(t' & [->|Hin]%elem_of_cons & Ht) [Hv Hl]]; [by left|].
    right. split; [by exists t'|done].
  - intros [(Ht & Hv & Hl)|[(t' & Hin & Ht) [Hv Hl]]].
    + split; [|done]. exists t. split; [left|done].
    + split; [|done]. exists t'. split; [by right|done].
Qed.

Lemma indirect_cons vis t ts r :
  indirect self target vis (t :: ts) r ↔
  (stations self !! t = Some r ∧ (id (obj self r) ∉ vis)
   ∧ ¬ on_target_line self target r)
  ∨ indirect self target vis ts r.
Proof.
  unfold indirect, transfer_in. split.
  - intros [(t' & [->|Hin]%elem_of_cons & Ht) [Hv Hl]]; [by left|].
    right. split; [by exists t'|done].
  - intros [(Ht & Hv & Hl)|[(t' & Hin & Ht) [Hv Hl]]].
    + split; [|done]. exists t. split; [left|done].
    + split; [|done]. exists t'. split; [by right|done].
Qed.

Lemma direct_nil vis r : ¬ direct self target vis [] r.
Proof. by intros [(t & ?%elem_of_nil & _) _]. Qed.

Lemma indirect_nil vis r : ¬ indirect self target vis [] r.
Proof. by intros [(t & ?%elem_of_nil & _) _]. Qed.

Lemma classify_spec vis ts acc acc' :
  for_each (classify self target vis) ts acc = Ok acc' →
  (∀ r, r ∈ acc'.1 ↔ r ∈ acc.1 ∨ direct self target vis ts r) ∧
  (∀ r, r ∈ acc'.2 ↔ r ∈ acc.2 ∨ indirect self target vis ts r).
Proof.
  revert acc. induction ts as [|t ts IH]; intros acc; simpl.
  - intros [= <-]. split; intros r; split; [by left| |by left|].
    + by intros [?|?%direct_nil].
    + by intros [?|?%indirect_nil].
  - intros (acc1 & Hc & Hrun)%bind_Ok. apply IH in Hrun as [H1 H2].
    unfold classify in Hc.
    destruct (stations self !! t) as [r0|] eqn:Ht; [|done].
    split; intros r; [rewrite H1, direct_cons|rewrite H2, indirect_cons];
      unfold on_target_line;
      repeat case_decide; simplify_eq; simpl;
      rewrite ?elem_of_app, ?list_elem_of_singleton;
      split; intros Hr; destruct_or?; destruct_and?; simplify_eq;
        try tauto; try (by right; left).
    all: try (by left; right).
Qed.

Lemma split_transfers_spec vis ts tl ot :
  split_transfers self target vis ts = Ok (tl, ot) →
  (∀ r, r ∈ tl ↔ direct self target vis ts r) ∧
  (∀ r, r ∈ ot ↔ indirect self target vis ts r).
Proof.
  intros [H1 H2]%classify_spec. simpl in *.
  split; intros r; [rewrite H1|rewrite H2]; split; try tauto;
    intros [?%elem_of_nil|?]; done.
Qed.
End search.

Section search_ok.
Variable self : SubwaySystem.
Variable target : ref.
Variable start : ref.

Lemma framed_trans s1 s2 s3 : framed s1 s2 → framed s2 s3 → framed s1 s3.
Proof. intros [??] [??]. split; congruence. Qed.

Section body.
Variable rec : ref → bool → SearchState → outcome SearchState.
Hypothesis rec_frame : ∀ r b s s', rec r b s = Ok s' → framed s s'.
Hypothesis rec_ok : ∀ r b s s',
  rec r b s = Ok s' → searching self target start s →
  trail self target start (current_path s ++ [(r, b)]) →
  Forall (arrived self target start) (all_paths s').

Variable current : ref.
Variable st1 : SearchState.
Hypothesis vis1 : visited st1 = ids_of self (current_path st1).
Hypothesis trail1 : ∃ p b, current_path st1 = p ++ [(current, b)]
                           ∧ trail self target start (p ++ [(current, b)]).

Lemma call_ok r b s s' :
  move self target (visited st1) current (r, b) →
  keeps self target start st1 s → rec r b s = Ok s' →
  keeps self target start st1 s'.
Proof.
  intros Hmove [Hfr Hall] Hrec. split.
  - eapply framed_trans; [done|]. by eapply rec_frame.
  - eapply rec_ok; [done| |].
    + split; [|done]. destruct Hfr as [-> ->]. done.
    + destruct Hfr as [_ ->]. destruct trail1 as (p & b0 & Hp & Htr).
      rewrite Hp. apply trail_move; [done|]. by rewrite <- Hp, <- vis1.
Qed.

Lemma transfers_ok (rs : list ref) s s' :
  (∀ r, r ∈ rs → move self target (visited st1) current (r, true)) →
  keeps self target start st1 s →
  for_each (λ r, rec r true) rs s = Ok s' →
  keeps self target start st1 s'.
Proof.
  intros Hrs. apply (for_each_inv (keeps self target start st1)).
  intros r s1 s2 Hr HI Hrec. eapply call_ok; eauto.
Qed.

Lemma neighbours_ok (nbs : list (option ref)) s s' :
  (∀ r, Some r ∈ nbs → id (obj self r) ∉ visited st1 →
        move self target (visited st1) current (r, false)) →
  keeps self target start st1 s →
  for_each (try_neighbour self rec) nbs s = Ok s' →
  keeps self target start st1 s'.
Proof.
  intros Hnbs. apply (for_each_inv (keeps self target start st1)).
  intros [r|] s1 s2 Hr HI; simpl; [|by intros [= <-]].
  case_decide as Hv; [by intros [= <-]|].
  intros Hrec. eapply call_ok; [|done..].
  apply Hnbs; [done|]. destruct HI as [[<- _] _]. done.
Qed.
End body.
End search_ok.

Section dfs_ok.
Variable self : SubwaySystem.
Variable target : ref.
Variable start : ref.

Lemma arrived_current p current b :
  trail self target start (p ++ [(current, b)]) →
  id (obj self current) = id (obj self target) →
  arrived self target start (p ++ [(current, b)]).
Proof.
  intros Htr Hid. split; [done|]. exists (current, b).
  by rewrite last_snoc.
Qed.

Lemma dfs_body_ok rec current b st st' :
  (∀ r b s s', rec r b s = Ok s' → framed s s') →
  (∀ r b s s',
      rec r b s = Ok s' → searching self target start s →
      trail self target start (current_path s ++ [(r, b)]) →
      Forall (arrived self target start) (all_paths s')) →
  dfs_body rec self target current b st = Ok st' →
  searching self target start st →
  trail self target start (current_path st ++ [(current, b)]) →
  Forall (arrived self target start) (all_paths st').
Proof.
  intros rec_frame rec_ok Hrun [Hvis Hall] Htr. revert Hrun.
  unfold dfs_body. case_decide as Hnew; [by intros [= <-]|].
  intros (st2 & Hbody & Hleave)%bind_Ok.
  set (st1 := enter self current b st) in *.
  assert (visited st1 = ids_of self (current_path st1)) as Hvis1.
  { simpl. by rewrite ids_of_snoc, Hvis. }
  assert (∃ p b0, current_path st1 = p ++ [(current, b0)]
                  ∧ trail self target start (p ++ [(current, b0)]))
    as Htr1 by (by exists (current_path st), b).
  assert (framed st1 st1) as Hfr1 by done.
  assert (Forall (arrived self target start) (all_paths st1)) as Hall1
    by done.
  pose proof (transfers_ok self target start rec rec_frame rec_ok
                current st1 Hvis1 Htr1) as Htransfers.
  pose proof (neighbours_ok self target start rec rec_frame rec_ok
                current st1 Hvis1 Htr1) as Hneighbours.
  assert (∀ r, Some r ∈ [prev (obj self current); next (obj self current)]
               → sequential (obj self current) r) as Hseq.
  { intros r [Hr|[Hr|Hr%elem_of_nil]%elem_of_cons]%elem_of_cons; [| |done].
    - by left.
    - by right. }
  assert (framed st1 st2
          ∧ Forall (arrived self target start) (all_paths st2))
    as [Hfr2 Hall2].
  { revert Hbody. case_decide as Htgt; [|case_decide as Hline].
    - intros [= <-]. split; [apply accept_frame|].
      unfold accept. case_decide; [done|]. simpl.
      apply Forall_app. split; [done|]. apply Forall_singleton.
      by apply arrived_current.
    - apply Hneighbours; [|done].
      intros r Hr Hv. split; [done|]. split; [done|].
      left. split; [done|]. split; [by apply Hseq|done].
    - intros ([tl ot] & [Htl Hot]%split_transfers_spec & Hrun)%bind_Ok.
      destruct tl as [|t0 tl].
      + apply bind_Ok in Hrun as (s1 & Hrun1 & Hrun2).
        assert (∀ r, ¬ direct self target (visited st1)
                       (transfer_ids (obj self current)) r) as Hnone.
        { intros r Hr%Htl. by apply elem_of_nil in Hr. }
        eapply Hneighbours; [| |exact Hrun2].
        * intros r Hr Hv. split; [done|]. split; [done|].
          right. right. split; [done|]. split; [done|].
          right. split; [by apply Hseq|done].
        * eapply Htransfers; [| |exact Hrun1]; [|done].
          intros r Hr%Hot. split; [done|]. split; [apply Hr|].
          right. right. split; [done|]. split; [done|]. by left.
      + eapply Htransfers; [| |exact Hrun]; [|done].
        intros r Hr%Htl. split; [done|]. split; [apply Hr|].
        right. left. done. }
  destruct (leave_enter self current b st st2 Hnew Hfr2)
    as (s & Hs & _ & Hp & _).
  replace st' with s by congruence. by rewrite Hp.
Qed.

Lemma dfs_ok fuel current b st st' :
  dfs fuel self target current b st = Ok st' →
  searching self target start st →
  trail self target start (current_path st ++ [(current, b)]) →
  Forall (arrived self target start) (all_paths st').
Proof.
  revert current b st st'. induction fuel as [|fuel IH]; [done|].
  intros current b st st'. simpl. apply dfs_body_ok; [|done].
  intros r b0 s s'. apply dfs_frame.
Qed.
End dfs_ok.

(** Every path [find_route] returns is a trail from the resolved start
    that arrives at the id of the resolved end. *)
Lemma find_route_with_arrived fuel self sl sn el en paths :
  find_route_with fuel self sl sn el en = Ok paths →
  paths = [] ∨
  ∃ ss es s e,
    dict_get (lines self) sl = Some ss ∧ first_named self ss sn = Some s ∧
    dict_get (lines self) el = Some es ∧ first_named self es en = Some e ∧
    Forall (arrived self e s) paths.
Proof.
  unfold find_route_with.
  destruct (dict_get (lines self) sl) as [ss|] eqn:Hsl; [|done].
  destruct (dict_get (lines self) el) as [es|] eqn:Hel; [|done].
  destruct (first_named self ss sn) as [s|] eqn:Hs; [|intros [= <-]; by left].
  destruct (first_named self es en) as [e|] eqn:He; [|intros [= <-]; by left].
  intros (st & Hdfs & [= <-])%bind_Ok. right.
  exists ss, es, s, e. repeat (split; [done|]).
  eapply dfs_ok; [done| |].
  - split; [done|]. simpl. done.
  - simpl. constructor.
Qed.

Section trails.
Variable self : SubwaySystem.
Variable target : ref.
Variable start : ref.

Lemma path_ids_snoc p e :
  path_ids self (p ++ [e]) = path_ids self p ++ [id (obj self e.1)].
Proof. unfold path_ids. by rewrite fmap_app. Qed.

Lemma elem_of_ids_of p x : x ∈ ids_of self p ↔ x ∈ path_ids self p.
Proof. unfold ids_of. by rewrite elem_of_list_to_set. Qed.

Lemma trail_NoDup p :
  trail self target start p → NoDup (path_ids self p).
Proof.
  induction 1 as [|p from b e Htr IH Hmove].
  - apply NoDup_singleton.
  - rewrite path_ids_snoc. apply NoDup_app. split; [done|].
    split; [|apply NoDup_singleton].
    intros x Hx ->%list_elem_of_singleton.
    destruct Hmove as (_ & Hnew & _). by apply Hnew, elem_of_ids_of.
Qed.

Lemma trail_head p :
  trail self target start p → head p = Some (start, false).
Proof.
  induction 1 as [|p from b e Htr IH Hmove]; [done|].
  destruct p; simpl in *; done.
Qed.

(** Consecutive stops of a trail are a move of [dfs], made when the
    visited set held the ids of the stops up to the first of them. *)
Lemma trail_lookup p i a e :
  trail self target start p →
  p !! i = Some a → p !! S i = Some e →
  move self target (ids_of self (take (S i) p)) a.1 e.
Proof.
  induction 1 as [|p from b e' Htr IH Hmove]; intros Ha He.
  - by destruct i.
  - assert (length (p ++ [(from, b)]) = S (length p)) as Hlen
      by (rewrite length_app; simpl; lia).
    destruct (decide (S i < S (length p))) as [Hlt|Hge].
    + rewrite lookup_app_l in Ha by lia.
      rewrite lookup_app_l in He by lia.
      rewrite take_app_le by lia. by apply IH.
    + assert (i = length p) as ->.
      { apply lookup_lt_Some in He. rewrite length_app in He.
        simpl in He. lia. }
      rewrite take_app_le, take_ge by lia.
      rewrite lookup_app_l in Ha by lia.
      rewrite lookup_app_r, Nat.sub_diag in Ha by lia.
      rewrite lookup_app_r in He by lia.
      rewrite Hlen, Nat.sub_diag in He.
      simpl in Ha, He. by simplify_eq.
Qed.

(** The run-capping branch of [get_path_signature] is never taken on
    ids that are pairwise distinct. *)
Lemma processed_NoDup acc p :
  NoDup (acc ++ path_ids self p) →
  foldl (sig_step self) acc p = acc ++ path_ids self p.
Proof.
  revert acc. induction p as [|e p IH]; intros acc Hnd; simpl.
  { by rewrite app_nil_r. }
  assert (sig_step self acc e = acc ++ [id (obj self e.1)]) as ->.
  { unfold sig_step.
    destruct (decide (length acc < 2)) as [Hlt|Hge].
    { by rewrite bool_decide_eq_true_2. }
    assert (id (obj self e.1) ≠ acc !!! (length acc - 1)) as Hne.
    { intros Heq. apply NoDup_app in Hnd as (_ & Hnd & _).
      apply (Hnd (id (obj self e.1))); [|left].
      rewrite Heq. apply list_elem_of_lookup_total_2. lia. }
    rewrite (bool_decide_eq_true_2 (_ ≠ _ !!! (_ - 1))) by done.
    by rewrite orb_true_r. }
  rewrite IH; [by rewrite <- (assoc app)|].
  by rewrite <- (assoc app).
Qed.
End trails.

Lemma for_each_agree {A S} (I : S → Prop)
    (body1 body2 : A → S → outcome S) (l : list A) (st : S) :
  (∀ x s, x ∈ l → I s →
          body2 x s = body1 x s ∧ ∀ s', body1 x s = Ok s' → I s') →
  I st → for_each body2 l st = for_each body1 l st.
Proof.
  revert st. induction l as [|x l IH]; intros st Hbody HI; simpl; [done|].
  destruct (Hbody x st) as [-> Hnext]; [left|done|].
  destruct (body1 x st) as [s1| |]; simpl; [|done..].
  apply IH; [|by apply Hnext]. intros y s Hy. apply Hbody. by right.
Qed.

(** One step of the search: [dfs] returns at once on a visited stop;
    otherwise every recursive call it makes sees the visited set enlarged
    by the id of the stop being expanded. *)
Lemma dfs_body_step (self : SubwaySystem) (target current : ref) (b : bool)
    (st : SearchState)
    (rec rec' : ref → bool → SearchState → outcome SearchState) :
  (id (obj self current) ∈ visited st →
   dfs_body rec self target current b st = Ok st) ∧
  (id (obj self current) ∉ visited st →
   (∀ r b s s', rec r b s = Ok s' → framed s s') →
   (∀ r b s, visited s = {[id (obj self current)]} ∪ visited st →
             rec' r b s = rec r b s) →
   dfs_body rec' self target current b st
   = dfs_body rec self target current b st).
Proof.
  unfold dfs_body. split; [intros Hin; by rewrite decide_True|].
  intros Hnew Hframe Hagree.
  destruct (decide (id (obj self current) ∈ visited st)); [done|].
  set (st1 := enter self current b st).
  set (I := λ s : SearchState, visited s = visited st1).
  assert (∀ (rs : list ref) s, I s →
            for_each (λ r, rec' r true) rs s
            = for_each (λ r, rec r true) rs s) as Htransfers.
  { intros rs s. apply (for_each_agree I). intros r s0 _ Hs0.
    split; [by apply Hagree|]. intros s' [Hv _]%Hframe.
    unfold I in *. congruence. }
  assert (∀ nbs s, I s →
            for_each (try_neighbour self rec') nbs s
            = for_each (try_neighbour self rec) nbs s) as Hneighbours.
  { intros nbs s. apply (for_each_agree I). intros [r|] s0 _ Hs0; simpl.
    - case_decide; [split; [done|by intros ? [= <-]]|].
      split; [by apply Hagree|]. intros s' [Hv _]%Hframe.
      unfold I in *. congruence.
    - split; [done|by intros ? [= <-]]. }
  destruct (decide (id (obj self current) = id (obj self target))); [done|].
  destruct (decide (line (obj self current) = line (obj self target))).
  { by rewrite Hneighbours. }
  destruct (split_transfers self target (visited st1)
              (transfer_ids (obj self current))) as [[tl ot]| |];
    cbn [mbind outcome_mbind outcome_bind]; [|done..].
  destruct tl as [|t0 tl]; [|by rewrite Htransfers].
  rewrite Htransfers by done.
  destruct (for_each (λ r, rec r true) ot st1) as [s1| |] eqn:Hrun;
    cbn [mbind outcome_mbind outcome_bind]; [|done..].
  rewrite Hneighbours; [done|].
  revert Hrun. apply (for_each_inv I); [|done].
  intros r s s' _ Hs [Hv _]%Hframe. unfold I in *. congruence.
Qed.

(** ** Independence of the recursion budget *)

Lemma settles_refl {A} (o : outcome A) : settles o o.
Proof. by intros _. Qed.

Lemma settles_bind {A B} (m1 m2 : outcome A) (f1 f2 : A → outcome B) :
  settles m1 m2 → (∀ a, settles (f1 a) (f2 a)) →
  settles (m1 ≫= f1) (m2 ≫= f2).
Proof.
  intros Hm Hf. destruct m1 as [a|e|]; simpl.
  - rewrite Hm by done. apply Hf.
  - rewrite Hm by done. by intros _.
  - by intros [].
Qed.

Lemma settles_for_each {A S} (body1 body2 : A → S → outcome S) l st :
  (∀ x s, settles (body1 x s) (body2 x s)) →
  settles (for_each body1 l st) (for_each body2 l st).
Proof.
  intros Hbody. revert st. induction l as [|x l IH]; intros st; simpl.
  - apply settles_refl.
  - by apply settles_bind.
Qed.

Section budget.
Variable self : SubwaySystem.
Variable target : ref.

Lemma settles_try_neighbour rec1 rec2 o s :
  (∀ r b s, settles (rec1 r b s) (rec2 r b s)) →
  settles (try_neighbour self rec1 o s) (try_neighbour self rec2 o s).
Proof.
  intros Hrec. destruct o as [r|]; simpl; [|apply settles_refl].
  case_decide; [apply settles_refl|apply Hrec].
Qed.

Lemma settles_dfs_body rec1 rec2 current b st :
  (∀ r b s, settles (rec1 r b s) (rec2 r b s)) →
  settles (dfs_body rec1 self target current b st)
          (dfs_body rec2 self target current b st).
Proof.
  intros Hrec. unfold dfs_body. case_decide; [apply settles_refl|].
  apply settles_bind; [|intros; apply settles_refl].
  repeat case_decide; [apply settles_refl|..].
  - apply settles_for_each. intros. by apply settles_try_neighbour.
  - apply settles_bind; [apply settles_refl|]. intros [[|t tl] ot].
    + apply settles_bind.
      * apply settles_for_each. intros. apply Hrec.
      * intros. apply settles_for_each. intros.
        by apply settles_try_neighbour.
    + apply settles_for_each. intros. apply Hrec.
Qed.

Lemma settles_dfs_S fuel current b st :
  settles (dfs fuel self target current b st)
          (dfs (S fuel) self target current b st).
Proof.
  revert current b st. induction fuel as [|fuel IH]; intros current b st.
  - by intros [].
  - change (settles
              (dfs_body (dfs fuel self target) self target current b st)
              (dfs_body (dfs (S fuel) self target) self target
                        current b st)).
    by apply settles_dfs_body.
Qed.

Lemma settles_dfs fuel fuel' current b st :
  fuel ≤ fuel' →
  settles (dfs fuel self target current b st)
          (dfs fuel' self target current b st).
Proof.
  induction 1 as [|fuel' _ IH]; [apply settles_refl|].
  intros Hne. rewrite <- (IH Hne). apply settles_dfs_S.
  by rewrite (IH Hne).
Qed.
End budget.

Lemma settles_find_route_with fuel fuel' self sl sn el en :
  fuel ≤ fuel' →
  settles (find_route_with fuel self sl sn el en)
          (find_route_with fuel' self sl sn el en).
Proof.
  intros Hle. unfold find_route_with.
  repeat case_match; try apply settles_refl.
  apply settles_bind; [by apply settles_dfs|]. intros. apply settles_refl.
Qed.

(** ** Dictionaries *)
Section dict_facts.
Context {V : Type}.
Implicit Types (d : list (string * V)) (k : string) (v : V).

Lemma dict_get_elem d k v : dict_get d k = Some v → (k, v) ∈ d.
Proof.
  induction d as [|[k' v'] d IH]; simpl; [done|].
  case_decide; [intros [= <-]; subst; left|intros ?; right; auto].
Qed.

Lemma dict_get_set d k v k' :
  dict_get (dict_set d k v) k'
  = if decide (k = k') then Some v else dict_get d k'.
Proof.
  induction d as [|[k0 v0] d IH]; simpl.
  - by repeat case_decide.
  - repeat (case_decide; simpl; simplify_eq); try done.
    all: rewrite IH; by repeat case_decide.
Qed.

Lemma dict_get_alter (f : V → V) d k k' :
  dict_get (dict_alter f k d) k'
  = if decide (k = k') then f <$> dict_get d k' else dict_get d k'.
Proof.
  induction d as [|[k0 v0] d IH]; simpl.
  - by case_decide.
  - repeat (case_decide; simpl; simplify_eq); try done.
    all: rewrite IH; by repeat case_decide.
Qed.

Lemma elem_of_dict_set d k v k' v' :
  (k', v') ∈ dict_set d k v → (k', v') ∈ d ∨ (k' = k ∧ v' = v).
Proof.
  induction d as [|[k0 v0] d IH]; simpl.
  - intros [= -> ->]%list_elem_of_singleton. by right.
  - case_decide; subst.
    + intros [[= -> ->]|?]%elem_of_cons; [by right|]. left. by right.
    + intros [[= -> ->]|[?|?]%IH]%elem_of_cons.
      * left. left.
      * left. by right.
      * by right.
Qed.

Lemma elem_of_dict_alter (f : V → V) d k k' v' :
  (k', v') ∈ dict_alter f k d →
  (k', v') ∈ d ∨ (k' = k ∧ ∃ v, (k, v) ∈ d ∧ v' = f v).
Proof.
  induction d as [|[k0 v0] d IH]; simpl; [by left|].
  case_decide; subst.
  - intros [[= -> ->]|?]%elem_of_cons.
    + right. split; [done|]. exists v0. split; [left|done].
    + left. by right.
  - intros [[= -> ->]|[?|(-> & v & ? & ->)]%IH]%elem_of_cons.
    + left. left.
    + left. by right.
    + right. split; [done|]. exists v. split; [by right|done].
Qed.
End dict_facts.

(** ** The loop over the rows *)
Section rows.
Lemma add_row_objs s row :
  objs (add_row s row) = objs s ++ [station_of row].
Proof. done. Qed.

Lemma add_row_stations s row k :
  stations (add_row s row) !! k
  = if decide (row_id row = k) then Some (length (objs s))
    else stations s !! k.
Proof. simpl. apply lookup_insert. Qed.

Lemma add_row_lines s row l :
  dict_get (lines (add_row s row)) l
  = if decide (row_line row = l)
    then Some (default [] (dict_get (lines s) l) ++ [length (objs s)])
    else dict_get (lines s) l.
Proof.
  simpl. rewrite dict_get_alter.
  case_decide as Hl; subst.
  - destruct (dict_get (lines s) (row_line row)) as [rs|] eqn:E; simpl.
    + by rewrite E.
    + rewrite dict_get_set. by rewrite decide_True.
  - destruct (dict_get (lines s) (row_line row)); [done|].
    rewrite dict_get_set. by rewrite decide_False.
Qed.

Lemma add_row_entries s row l rs :
  (l, rs) ∈ lines (add_row s row) →
  (l, rs) ∈ lines s ∨ rs = [] ∨
  (l = row_line row ∧ ∃ rs0, rs = rs0 ++ [length (objs s)] ∧
     (rs0 = [] ∨ (l, rs0) ∈ lines s)).
Proof.
  simpl. intros [Hin|(-> & rs0 & Hin & ->)]%elem_of_dict_alter.
  - destruct (dict_get (lines s) (row_line row)); [by left|].
    apply elem_of_dict_set in Hin as [?|[-> ->]]; [by left|].
    right. by left.
  - right. right. split; [done|]. exists rs0. split; [done|].
    destruct (dict_get (lines s) (row_line row)); [by right|].
    apply elem_of_dict_set in Hin as [?|[_ ->]]; [by right|by left].
Qed.
End rows.

Section pre_link.
Lemma rows_loaded_snoc rows row :
  rows_loaded (rows ++ [row]) = add_row (rows_loaded rows) row.
Proof. apply foldl_snoc. Qed.

Lemma rows_loaded_objs rows :
  objs (rows_loaded rows) = station_of <$> rows.
Proof.
  induction rows as [|row rows IH] using rev_ind; [done|].
  by rewrite rows_loaded_snoc, add_row_objs, IH, fmap_app.
Qed.

Lemma rows_loaded_length rows :
  length (objs (rows_loaded rows)) = length rows.
Proof. by rewrite rows_loaded_objs, length_fmap. Qed.

(** [self.stations[k]] is the last row whose id is [k]. *)
Lemma rows_loaded_stations rows k r :
  stations (rows_loaded rows) !! k = Some r ↔
  ∃ row, rows !! r = Some row ∧ row_id row = k ∧
         ∀ r' row', r < r' → rows !! r' = Some row' → row_id row' ≠ k.
Proof.
  revert r. induction rows as [|row rows IH] using rev_ind; intros r.
  { split; [done|]. by intros (row & ? & _). }
  rewrite rows_loaded_snoc, add_row_stations, rows_loaded_length.
  case_decide as Hk.
  - split.
    + intros [= <-]. exists row. rewrite lookup_app_r, Nat.sub_diag by lia.
      split; [done|]. split; [done|]. intros r' row' Hlt Hr'.
      apply lookup_lt_Some in Hr'. rewrite length_app in Hr'.
      simpl in Hr'. lia.
    + intros (row0 & Hr & Hid & Hlast). f_equal.
      assert (r < length (rows ++ [row])) as Hlt
        by by eapply lookup_lt_Some.
      rewrite length_app in Hlt. simpl in Hlt.
      destruct (decide (r = length rows)) as [|Hne]; [done|].
      exfalso. apply (Hlast (length rows) row); [lia| |done].
      by rewrite lookup_app_r, Nat.sub_diag by lia.
  - rewrite IH. split.
    + intros (row0 & Hr & Hid & Hlast). exists row0.
      split; [by apply lookup_app_l_Some|]. split; [done|].
      intros r' row' Hlt Hr'.
      apply lookup_app_Some in Hr' as [Hr'|[Hge Hr']]; [by eauto|].
      apply list_lookup_singleton_Some in Hr' as [_ <-]. congruence.
    + intros (row0 & Hr & Hid & Hlast).
      apply lookup_app_Some in Hr as [Hr|[Hge Hr]].
      * exists row0. split; [done|]. split; [done|].
        intros r' row' Hlt Hr'. eapply Hlast; [done|].
        by apply lookup_app_l_Some.
      * apply list_lookup_singleton_Some in Hr as [_ <-]. congruence.
Qed.

Lemma rows_loaded_entries rows l rs r :
  (l, rs) ∈ lines (rows_loaded rows) → r ∈ rs →
  ∃ row, rows !! r = Some row ∧ row_line row = l.
Proof.
  revert rs r. induction rows as [|row rows IH] using rev_ind;
    intros rs r.
  { simpl. by intros ?%elem_of_nil. }
  rewrite rows_loaded_snoc.
  intros [Hin|[Hnil|(Hl & rs0 & Hrs & Hrs0)]]%add_row_entries Hr;
    simplify_eq.
  - destruct (IH _ _ Hin Hr) as (row0 & ? & ?). exists row0.
    split; [by apply lookup_app_l_Some|done].
  - by apply elem_of_nil in Hr.
  - rewrite rows_loaded_length in Hr.
    apply elem_of_app in Hr as [Hr | ->%list_elem_of_singleton].
    + destruct Hrs0 as [->|Hin]; [by apply elem_of_nil in Hr|].
      destruct (IH _ _ Hin Hr) as (row0 & ? & ?). exists row0.
      split; [by apply lookup_app_l_Some|done].
    + exists row. by rewrite lookup_app_r, Nat.sub_diag by lia.
Qed.

Lemma rows_loaded_lines rows r row :
  rows !! r = Some row →
  ∃ rs, dict_get (lines (rows_loaded rows)) (row_line row) = Some rs
        ∧ r ∈ rs.
Proof.
  revert r row. induction rows as [|row0 rows IH] using rev_ind;
    intros r row; [done|].
  rewrite rows_loaded_snoc, add_row_lines, rows_loaded_length.
  intros [Hr|[Hge Hr]]%lookup_app_Some.
  - destruct (IH _ _ Hr) as (rs & Hrs & Hin). case_decide.
    + eexists. split; [done|]. rewrite Hrs. simpl.
      apply elem_of_app. by left.
    + by exists rs.
  - apply list_lookup_singleton_Some in Hr as [Hr <-].
    rewrite decide_True by done. eexists. split; [done|].
    apply elem_of_app. right. apply list_elem_of_singleton. lia.
Qed.
End pre_link.

(** ** The linking pass *)
Section link.
Variable os0 : list Station.

Lemma set_prev_linked r p os :
  linked os0 os →
  p < length os0 ∧ line (os0 !!! p) = line (os0 !!! r) →
  linked os0 (set_prev r p os).
Proof.
  intros (Hlen & Hcore & Hseq) Hp. unfold set_prev.
  split; [by rewrite length_alter|]. split.
  - intros j. rewrite list_lookup_total_alter.
    case_decide as Hj; [|done]. destruct Hj as [<- _].
    by rewrite <- Hcore.
  - intros j q. rewrite list_lookup_total_alter.
    case_decide as Hj; [|apply Hseq]. destruct Hj as [<- _].
    intros [Hq|Hq]; simpl in Hq.
    + by simplify_eq.
    + apply Hseq. by right.
Qed.

Lemma set_next_linked r p os :
  linked os0 os →
  p < length os0 ∧ line (os0 !!! p) = line (os0 !!! r) →
  linked os0 (set_next r p os).
Proof.
  intros (Hlen & Hcore & Hseq) Hp. unfold set_next.
  split; [by rewrite length_alter|]. split.
  - intros j. rewrite list_lookup_total_alter.
    case_decide as Hj; [|done]. destruct Hj as [<- _].
    by rewrite <- Hcore.
  - intros j q. rewrite list_lookup_total_alter.
    case_decide as Hj; [|apply Hseq]. destruct Hj as [<- _].
    intros [Hq|Hq]; simpl in Hq.
    + apply Hseq. by left.
    + by simplify_eq.
Qed.

Lemma on_line_pair l (ls : list ref) i j :
  Forall (on_line os0 l) ls → i < length ls → j < length ls →
  ls !!! j < length os0 ∧
  line (os0 !!! (ls !!! j)) = line (os0 !!! (ls !!! i)).
Proof.
  intros Hls Hi Hj.
  pose proof (Forall_lookup_total_1 _ _ _ Hls Hi) as [_ Hli].
  pose proof (Forall_lookup_total_1 _ _ _ Hls Hj) as [Hjn Hlj].
  split; [done|congruence].
Qed.

Lemma link_at_linked l ls os i :
  Forall (on_line os0 l) ls → i < length ls →
  linked os0 os → linked os0 (link_at ls os i).
Proof.
  intros Hls Hi Hos. unfold link_at.
  repeat case_decide;
    repeat first [apply set_next_linked | apply set_prev_linked];
    try done; apply (on_line_pair l); first [done | lia].
Qed.

Lemma link_line_linked l ls os :
  Forall (on_line os0 l) ls → linked os0 os → linked os0 (link_line os ls).
Proof.
  intros Hls. unfold link_line.
  assert (Forall (λ i, i < length ls) (seq 0 (length ls))) as His.
  { apply Forall_seq. intros. lia. }
  revert os His. generalize (seq 0 (length ls)) as idx.
  induction idx as [|i idx IH]; intros os His Hos; simpl; [done|].
  apply Forall_cons in His as [Hi His].
  apply IH; [done|]. by eapply link_at_linked.
Qed.

Lemma link_all_linked (lss : list (string * list ref)) os :
  (∀ l ls, (l, ls) ∈ lss → Forall (on_line os0 l) ls) →
  linked os0 os → linked os0 (link_all os lss).
Proof.
  unfold link_all. revert os.
  induction lss as [|[l ls] lss IH]; intros os Hlss Hos; simpl; [done|].
  apply IH.
  - intros l' ls' Hin. apply Hlss. by right.
  - eapply link_line_linked; [|done]. apply Hlss. left.
Qed.
End link.

(** ** What [load_from_csv] builds *)
Section loaded.
Variable rows : list Row.
Lemma load_lines : lines (load_from_csv init rows) = lines (rows_loaded rows).
Proof. done. Qed.

Lemma load_stations :
  stations (load_from_csv init rows) = stations (rows_loaded rows).
Proof. done. Qed.

Lemma load_linked :
  linked (station_of <$> rows) (objs (load_from_csv init rows)).
Proof.
  unfold load_from_csv. simpl.
  fold (rows_loaded rows). rewrite rows_loaded_objs.
  apply link_all_linked.
  2:{ split; [done|]. split; [done|]. intros r p.
      rewrite list_lookup_total_alt, list_lookup_fmap.
      destruct (rows !! r); intros [?|?]; done. }
  intros l ls Hin. apply Forall_forall. intros r Hr.
  destruct (rows_loaded_entries _ _ _ _ Hin Hr) as (row & Hrow & <-).
  split.
  - rewrite length_fmap. by eapply lookup_lt_Some.
  - erewrite list_lookup_total_correct; [|by rewrite list_lookup_fmap, Hrow].
    done.
Qed.

Lemma load_length : length (objs (load_from_csv init rows)) = length rows.
Proof. destruct load_linked as [-> _]. by rewrite length_fmap. Qed.

(** The object of a row keeps the row's fields. *)
Lemma load_core r row :
  rows !! r = Some row →
  core (obj (load_from_csv init rows) r) = core (station_of row).
Proof.
  intros Hr. destruct load_linked as (_ & Hcore & _).
  unfold obj. rewrite Hcore.
  erewrite list_lookup_total_correct; [done|].
  by rewrite list_lookup_fmap, Hr.
Qed.

Lemma load_wf : wf (load_from_csv init rows).
Proof.
  split.
  - intros k r [row [Hr _]]%rows_loaded_stations.
    rewrite load_length. by eapply lookup_lt_Some.
  - intros l rs r Hget%dict_get_elem Hr.
    destruct (rows_loaded_entries _ _ _ _ Hget Hr) as (row & Hrow & <-).
    split.
    + rewrite load_length. by eapply lookup_lt_Some.
    + pose proof (load_core _ _ Hrow) as Hc. unfold core in Hc.
      by simplify_eq.
  - intros r p Hseq. destruct load_linked as (_ & Hcore & Hlinks).
    destruct (Hlinks _ _ Hseq) as [Hp Hline].
    split; [by rewrite load_length, length_fmap in *|].
    pose proof (Hcore r) as Hr. pose proof (Hcore p) as Hp'.
    unfold core, obj in *. injection Hr. injection Hp'. congruence.
Qed.
End loaded.

Lemma for_each_returns {A S} (I : S → Prop) (body : A → S → outcome S)
    (l : list A) (st : S) :
  (∀ x s, x ∈ l → I s → ∃ s', body x s = Ok s' ∧ I s') →
  I st → ∃ st', for_each body l st = Ok st' ∧ I st'.
Proof.
  revert st. induction l as [|x l IH]; intros st Hbody HI; simpl.
  - by exists st.
  - destruct (Hbody x st) as (s1 & -> & HI1); [left|done|]. simpl.
    apply IH; [|done]. intros y s Hy. apply Hbody. by right.
Qed.

Section termination.
Variable self : SubwaySystem.
Variable target : ref.
Hypothesis Hwf : wf self.
Hypothesis Hres : resolvable self.

Lemma obj_id_known r :
  r < length (objs self) → id (obj self r) ∈ all_ids self.
Proof.
  intros Hr. unfold all_ids, obj. apply elem_of_list_to_set.
  apply list_elem_of_fmap. exists (objs self !!! r). split; [done|].
  by apply list_elem_of_lookup_total_2.
Qed.

Lemma classify_returns vis ts acc :
  (∀ t, t ∈ ts → is_Some (stations self !! t)) →
  ∃ acc', for_each (classify self target vis) ts acc = Ok acc'.
Proof.
  intros Hts.
  destruct (for_each_returns (λ _, True) (classify self target vis) ts acc)
    as (acc' & ? & _); [|done|by exists acc'].
  intros t a Ht _. destruct (Hts t Ht) as [r Hr]. unfold classify.
  rewrite Hr. repeat case_decide; eauto.
Qed.

Lemma dfs_returns fuel current b st :
  current < length (objs self) →
  id (obj self current) ∉ visited st →
  size (all_ids self ∖ visited st) ≤ fuel →
  ∃ st', dfs fuel self target current b st = Ok st'.
Proof.
  revert current b st.
  induction fuel as [|fuel IH]; intros current b st Hcur Hnew Hsize.
  { exfalso.
    assert ({[id (obj self current)]} ⊆ all_ids self ∖ visited st) as Hsub.
    { pose proof (obj_id_known current Hcur). set_solver. }
    apply subseteq_size in Hsub. rewrite size_singleton in Hsub. lia. }
  simpl. unfold dfs_body. rewrite decide_False by done.
  set (st1 := enter self current b st).
  assert (size (all_ids self ∖ visited st1) ≤ fuel) as Hsize1.
  { assert (all_ids self ∖ visited st1 ⊂ all_ids self ∖ visited st)
      as Hsub.
    { pose proof (obj_id_known current Hcur). simpl. set_solver. }
    apply subset_size in Hsub. lia. }
  assert (∀ r s, r < length (objs self) →
                 id (obj self r) ∉ visited st1 → framed st1 s →
                 ∃ s', dfs fuel self target r true s = Ok s'
                       ∧ framed st1 s') as Hcall_t.
  { intros r s Hr Hv Hfr. destruct (IH r true s) as [s' Hs']; [done|..].
    - by destruct Hfr as [-> _].
    - by destruct Hfr as [-> _].
    - exists s'. split; [done|].
      eapply framed_trans; [done|]. by eapply dfs_frame. }
  assert (∀ (rs : list ref) s,
            (∀ r, r ∈ rs → r < length (objs self)
                           ∧ id (obj self r) ∉ visited st1) →
            framed st1 s →
            ∃ s', for_each (λ r, dfs fuel self target r true) rs s = Ok s'
                  ∧ framed st1 s') as Htransfers.
  { intros rs s Hrs. apply for_each_returns.
    intros r s0 Hr Hfr. destruct (Hrs r Hr). by apply Hcall_t. }
  assert (∀ s, framed st1 s →
            ∃ s', for_each (try_neighbour self (dfs fuel self target))
                    [prev (obj self current); next (obj self current)] s
                  = Ok s' ∧ framed st1 s') as Hneighbours.
  { intros s. apply for_each_returns.
    intros [r|] s0 Hr Hfr; simpl; [|by exists s0].
    case_decide as Hv; [by exists s0|].
    assert (sequential (obj self current) r) as Hseq.
    { apply elem_of_cons in Hr as [Hr|Hr]; [by left|].
      apply list_elem_of_singleton in Hr. by right. }
    destruct (wf_links self Hwf _ _ Hseq) as [Hrange _].
    destruct (IH r false s0) as [s' Hs']; [done|done|..].
    - by destruct Hfr as [-> _].
    - exists s'. split; [done|].
      eapply framed_trans; [done|]. by eapply dfs_frame. }
  assert (∃ st2,
    (if decide (id (obj self current) = id (obj self target))
     then Ok (accept self st1)
     else if decide (line (obj self current) = line (obj self target))
     then for_each (try_neighbour self (dfs fuel self target))
            [prev (obj self current); next (obj self current)] st1
     else
       '(target_line_transfers, other_transfers) ←
         split_transfers self target (visited st1)
                         (transfer_ids (obj self current));
       match target_line_transfers with
       | _ :: _ => for_each (λ r, dfs fuel self target r true)
                            target_line_transfers st1
       | [] =>
           st' ← for_each (λ r, dfs fuel self target r true)
                          other_transfers st1;
           for_each (try_neighbour self (dfs fuel self target))
                    [prev (obj self current); next (obj self current)] st'
       end) = Ok st2 ∧ framed st1 st2) as (st2 & -> & Hfr2).
  { repeat case_decide.
    - eexists. split; [done|]. apply accept_frame.
    - by apply Hneighbours.
    - destruct (classify_returns (visited st1)
                  (transfer_ids (obj self current)) ([], []))
        as [[tl ot] Hsplit].
      { intros t Ht. eapply Hres; [|done].
        by apply list_elem_of_lookup_total_2. }
      unfold split_transfers. rewrite Hsplit. simpl.
      apply split_transfers_spec in Hsplit as [Htl Hot].
      assert (∀ r, r ∈ tl → r < length (objs self)
                             ∧ id (obj self r) ∉ visited st1) as Htl'.
      { intros r ((t & _ & Ht) & Hv & _)%Htl.
        split; [by eapply wf_stations|done]. }
      assert (∀ r, r ∈ ot → r < length (objs self)
                             ∧ id (obj self r) ∉ visited st1) as Hot'.
      { intros r ((t & _ & Ht) & Hv & _)%Hot.
        split; [by eapply wf_stations|done]. }
      destruct tl as [|t0 tl].
      + destruct (Htransfers ot st1 Hot') as (s1 & -> & Hfr1); [done|].
        simpl. by apply Hneighbours.
      + by apply Htransfers. }
  simpl.
  destruct (leave_enter self current b st st2 Hnew Hfr2) as (s & Hs & _).
  by exists s.
Qed.
End termination.

Lemma first_named_Some self stops wanted r :
  first_named self stops wanted = Some r →
  r ∈ stops ∧ name (obj self r) = wanted.
Proof.
  unfold first_named. intros [Hin Hname]%find_some.
  split; [by apply list_elem_of_In|]. by apply bool_decide_eq_true in Hname.
Qed.

Section trail_range.
Variable self : SubwaySystem.
Variable target start : ref.
Hypothesis Hwf : wf self.

Lemma trail_in_range p :
  start < length (objs self) →
  trail self target start p →
  ∀ e, e ∈ p → e.1 < length (objs self).
Proof.
  intros Hstart. induction 1 as [|p from b e Htr IH Hmove]; intros x.
  - by intros ->%list_elem_of_singleton.
  - intros [Hx | ->%list_elem_of_singleton]%elem_of_app; [by apply IH|].
    destruct Hmove as (_ & _ & Hcase).
    assert (sequential (obj self from) e.1 → e.1 < length (objs self))
      as Hseq by (by intros [? _]%(wf_links self Hwf)).
    assert (transfer_in self (transfer_ids (obj self from)) e.1 →
            e.1 < length (objs self)) as Htr'.
    { intros (t & _ & Ht). by eapply wf_stations. }
    destruct Hcase as [(_ & ? & _)|[(_ & [? _] & _)|(_ & _ & Hc)]]; auto.
    destruct Hc as [[[? _] _]|[? _]]; auto.
Qed.
End trail_range.

Section loaded_facts.
Variable rows : list Row.
Lemma load_obj_fields r row :
  rows !! r = Some row →
  id (obj (load_from_csv init rows) r) = row_id row ∧
  line (obj (load_from_csv init rows) r) = row_line row ∧
  name (obj (load_from_csv init rows) r) = row_name row ∧
  transfer_ids (obj (load_from_csv init rows) r) = row_transfers row.
Proof.
  intros Hc%load_core. unfold core in Hc. simpl in Hc.
  injection Hc. auto.
Qed.

Lemma load_ids : id <$> objs (load_from_csv init rows) = row_id <$> rows.
Proof.
  apply list_eq. intros r. rewrite !list_lookup_fmap.
  destruct (rows !! r) as [row|] eqn:Hr.
  - destruct (load_obj_fields _ _ Hr) as [Hid _].
    rewrite list_lookup_lookup_total_lt
      by (rewrite load_length; by eapply lookup_lt_Some).
    change (Some (id (obj (load_from_csv init rows) r))
            = Some (row_id row)).
    by rewrite Hid.
  - rewrite lookup_ge_None_2; [done|].
    rewrite load_length. by apply lookup_ge_None.
Qed.

Lemma load_all_ids :
  all_ids (load_from_csv init rows) = list_to_set (row_id <$> rows).
Proof. unfold all_ids. by rewrite load_ids. Qed.

(** Distinct row ids make the id identify the Station object. *)
Lemma load_ids_inj r1 r2 :
  NoDup (row_id <$> rows) →
  r1 < length (objs (load_from_csv init rows)) →
  r2 < length (objs (load_from_csv init rows)) →
  id (obj (load_from_csv init rows) r1)
  = id (obj (load_from_csv init rows) r2) →
  r1 = r2.
Proof.
  rewrite <- load_ids. intros Hnd H1 H2 Heq.
  eapply NoDup_lookup; [done|..].
  - rewrite list_lookup_fmap, list_lookup_lookup_total_lt by done. done.
  - rewrite list_lookup_fmap, list_lookup_lookup_total_lt by done.
    simpl. f_equal. symmetry. exact Heq.
Qed.

Lemma stations_some_later r row :
  rows !! r = Some row →
  ∃ k, r ≤ k ∧ stations (load_from_csv init rows) !! row_id row = Some k.
Proof.
  rewrite load_stations. revert r row.
  induction rows as [|row0 rows' IH] using rev_ind; intros r row; [done|].
  rewrite rows_loaded_snoc, add_row_stations, rows_loaded_length.
  intros Hr. assert (r < length (rows' ++ [row0])) as Hlt
    by by eapply lookup_lt_Some.
  rewrite length_app in Hlt. simpl in Hlt.
  case_decide as Hid; [exists (length rows'); split; [lia|done]|].
  apply lookup_app_Some in Hr as [Hr|[_ Hr]]; [by apply IH|].
  apply list_lookup_singleton_Some in Hr as [_ <-]. done.
Qed.

Lemma load_resolvable :
  transfers_resolvable rows → resolvable (load_from_csv init rows).
Proof.
  intros Hres s t Hs Ht.
  apply list_elem_of_lookup in Hs as [r Hr].
  assert (r < length rows) as Hlt.
  { rewrite <- load_length. by eapply lookup_lt_Some. }
  destruct (lookup_lt_is_Some_2 rows r Hlt) as [row Hrow].
  destruct (load_obj_fields _ _ Hrow) as (_ & _ & _ & Htr).
  unfold obj in Htr. erewrite list_lookup_total_correct in Htr by done.
  rewrite Htr in Ht.
  destruct (Hres row t) as (row' & Hin & <-); [|done|].
  { by eapply list_elem_of_lookup_2. }
  apply list_elem_of_lookup in Hin as [r' Hr'].
  destruct (stations_some_later _ _ Hr') as (k & _ & Hk). by exists k.
Qed.
End loaded_facts.

(** What a returned path is, on a network built by [load_from_csv]. *)
Lemma returned_path (rows : list Row) (fuel : nat)
    (sl sn el en : string) (paths : list (list (ref * bool)))
    (p : list (ref * bool)) :
  let g := load_from_csv init rows in
  find_route_with fuel g sl sn el en = Ok paths → p ∈ paths →
  ∃ ss es s e,
    dict_get (lines g) sl = Some ss ∧ first_named g ss sn = Some s ∧
    dict_get (lines g) el = Some es ∧ first_named g es en = Some e ∧
    s < length (objs g) ∧ e < length (objs g) ∧
    line (obj g e) = el ∧ arrived g e s p.
Proof.
  intros g Hrun Hp.
  destruct (find_route_with_arrived _ _ _ _ _ _ _ Hrun)
    as [-> | (ss & es & s & e & Hss & Hs & Hes & He & Hall)].
  { by apply elem_of_nil in Hp. }
  exists ss, es, s, e. repeat (split; [done|]).
  pose proof (load_wf rows) as Hwf.
  apply first_named_Some in Hs as [Hs _].
  apply first_named_Some in He as [He _].
  destruct (wf_lines _ Hwf _ _ _ Hss Hs) as [? _].
  destruct (wf_lines _ Hwf _ _ _ Hes He) as [? ?].
  repeat (split; [done|]).
  by eapply Forall_forall in Hall.
Qed.

(** Two completed runs agree, whatever stack space each was given. *)
Lemma find_route_with_agree (self : SubwaySystem)
    (sl sn el en : string) (fuel1 fuel2 : nat) :
  find_route_with fuel1 self sl sn el en ≠ OutOfFuel →
  find_route_with fuel2 self sl sn el en ≠ OutOfFuel →
  find_route_with fuel1 self sl sn el en
  = find_route_with fuel2 self sl sn el en.
Proof.
  intros H1 H2. destruct (Nat.le_ge_cases fuel1 fuel2) as [Hle|Hle].
  - symmetry. by apply (settles_find_route_with fuel1 fuel2).
  - by apply (settles_find_route_with fuel2 fuel1).
Qed.

Lemma size_list_to_set_le (l : list Z) :
  size (list_to_set l : gset Z) ≤ length l.
Proof.
  induction l as [|x l IH]; simpl.
  { change (size (∅ : gset Z) ≤ 0). by rewrite size_empty. }
  rewrite size_union_alt, size_singleton.
  assert (size (list_to_set l ∖ {[x]} : gset Z)
          ≤ size (list_to_set l : gset Z))
    by (apply subseteq_size; set_solver).
  lia.
Qed.

(** With a stack level for every distinct id, [find_route] on a
    well-formed network with resolvable transfers returns; it raises only
    for a line that is no key of [self.lines]. *)
Lemma find_route_with_returns (self : SubwaySystem) (fuel : nat)
    (sl sn el en : string) :
  wf self → resolvable self → size (all_ids self) ≤ fuel →
  (∃ paths, find_route_with fuel self sl sn el en = Ok paths) ∨
  (find_route_with fuel self sl sn el en = Raise KeyError ∧
   (dict_get (lines self) sl = None ∨ dict_get (lines self) el = None)).
Proof.
  intros Hwf Hres Hfuel. unfold find_route_with.
  destruct (dict_get (lines self) sl) as [ss|] eqn:Hss; [|right; auto].
  destruct (dict_get (lines self) el) as [es|] eqn:Hes; [|right; auto].
  left.
  destruct (first_named self ss sn) as [s|] eqn:Hs; [|by exists []].
  destruct (first_named self es en) as [e|] eqn:He; [|by exists []].
  apply first_named_Some in Hs as [Hs _].
  destruct (wf_lines _ Hwf _ _ _ Hss Hs) as [Hrange _].
  destruct (dfs_returns self e Hwf Hres fuel s false init_search)
    as [st ->]; [done|set_solver| |by exists (all_paths st)].
  simpl. by rewrite difference_empty_L.
Qed.

(** * The claims *)

(** C1 as stated fails: when the given line is not a key of [self.lines],
    [find_route] raises [KeyError] instead of returning an empty list. *)
Lemma find_route_unknown_line_raises :
  resolve scenario "C" "W" = None ∧
  dict_get (lines scenario) "C" = None ∧
  find_route scenario "C" "W" "A" "X" = Raise KeyError.
Proof. by vm_compute. Qed.

(** C1, amended. For every network and every query whose two lines are keys
    of the line map, if the start pair or the end pair does not resolve to
    a Stop, [find_route] returns the empty list and raises nothing. *)
Theorem find_route_unresolved (self : SubwaySystem) (fuel : nat)
    (start_line start_station end_line end_station : string) :
  is_Some (dict_get (lines self) start_line) →
  is_Some (dict_get (lines self) end_line) →
  resolve self start_line start_station = None
  ∨ resolve self end_line end_station = None →
  find_route_with fuel self start_line start_station end_line end_station
  = Ok [].
Proof.
  intros [ss Hss] [es Hes]. unfold resolve, find_route_with.
  rewrite Hss, Hes. simpl. intros [-> | ->]; [done|].
  by destruct (first_named self ss start_station).
Qed.

Lemma find_route_unresolved_witness :
  find_route_with 6 scenario "A" "Q" "B" "W" = Ok [].
Proof.
  apply find_route_unresolved.
  - exists [0; 1; 2]. by vm_compute.
  - exists [3; 4]. by vm_compute.
  - left. by vm_compute.
Defined.

(** C2 as stated fails: two records with the same id load without any
    error; the later record silently replaces the earlier one in
    [self.stations] and both stay on their line. *)
Lemma duplicate_id_overwritten :
  let g := load_from_csv init duplicate_rows in
  row_id <$> duplicate_rows = [1; 1]%Z ∧
  stations g !! 1%Z = Some 1 ∧
  name (obj g 1) = "Y" ∧
  dict_get (lines g) "A" = Some [0; 1].
Proof. by vm_compute. Qed.

(** C2, amended. [load_from_csv] never fails on a repeated id: it creates
    one Station per record; when two records share an id, [self.stations]
    no longer maps the id to the earlier record but to the last record
    with that id, and both records stay in the list of their line. *)
Theorem load_duplicate_id (rows : list Row) (i j : nat) (ri rj : Row) :
  i < j → rows !! i = Some ri → rows !! j = Some rj →
  row_id ri = row_id rj →
  let g := load_from_csv init rows in
  length (objs g) = length rows ∧
  stations g !! row_id ri ≠ Some i ∧
  (∃ k, j ≤ k ∧ stations g !! row_id ri = Some k
        ∧ id (obj g k) = row_id ri
        ∧ ∀ k' row', k < k' → rows !! k' = Some row' →
                     row_id row' ≠ row_id ri) ∧
  (∃ rs, dict_get (lines g) (row_line ri) = Some rs ∧ i ∈ rs) ∧
  (∃ rs, dict_get (lines g) (row_line rj) = Some rs ∧ j ∈ rs).
Proof.
  intros Hlt Hi Hj Hid g. subst g.
  split; [apply load_length|]. split; [|split; [|split]].
  - rewrite load_stations.
    intros (row & _ & _ & Hlast)%rows_loaded_stations.
    by apply (Hlast j rj).
  - destruct (stations_some_later rows j rj Hj) as (k & Hk & Hst).
    exists k. rewrite Hid. split; [done|]. split; [done|].
    rewrite load_stations in Hst.
    apply rows_loaded_stations in Hst as (row & Hrow & Hrid & Hlast).
    destruct (load_obj_fields rows k row Hrow) as [-> _]. done.
  - rewrite load_lines. by apply rows_loaded_lines.
  - rewrite load_lines. by apply rows_loaded_lines.
Qed.

Lemma load_duplicate_id_witness :
  let g := load_from_csv init duplicate_rows in
  length (objs g) = 2 ∧
  stations g !! 1%Z ≠ Some 0 ∧
  (∃ k, 1 ≤ k ∧ stations g !! 1%Z = Some k ∧ id (obj g k) = 1%Z
        ∧ ∀ k' row', k < k' → duplicate_rows !! k' = Some row' →
                     row_id row' ≠ 1%Z) ∧
  (∃ rs, dict_get (lines g) "A" = Some rs ∧ 0 ∈ rs) ∧
  (∃ rs, dict_get (lines g) "A" = Some rs ∧ 1 ∈ rs).
Proof.
  apply (load_duplicate_id duplicate_rows 0 1
           (mkRow 1 "A" "X" []) (mkRow 1 "A" "Y" []));
    [lia | reflexivity..].
Defined.

(** C3. For every path, [get_path_signature] equals the reference
    definition of the specification: walk the stop ids in order, append
    each id unless the two preceding output entries both equal it, and join
    the output list in order. *)
Theorem get_path_signature_reference (self : SubwaySystem) (path : Path) :
  get_path_signature self path = reference_signature (path_ids self path).
Proof.
  unfold get_path_signature, reference_signature, processed.
  by rewrite <- (processed_walk self path []).
Qed.

(** C4. Transfers are never taken from a stop on the target line: in every
    returned path, a stop that lies on the end line is followed by its
    [prev] or [next] neighbour, entered with [is_transfer = False]. *)
Theorem no_transfer_from_target_line (rows : list Row) (fuel : nat)
    (sl sn el en : string) (paths : list (list (ref * bool)))
    (p : list (ref * bool)) (i : nat) (a b : ref) (fa fb : bool) :
  let g := load_from_csv init rows in
  find_route_with fuel g sl sn el en = Ok paths → p ∈ paths →
  p !! i = Some (a, fa) → p !! S i = Some (b, fb) →
  line (obj g a) = el →
  fb = false ∧ (prev (obj g a) = Some b ∨ next (obj g a) = Some b).
Proof.
  intros g Hrun Hp Ha Hb Hline. subst g.
  destruct (returned_path rows fuel sl sn el en paths p Hrun Hp)
    as (ss & es & s & e & _ & _ & _ & _ & _ & _ & Hel & Htr & _).
  pose proof (trail_lookup _ _ _ _ _ _ _ Htr Ha Hb) as (_ & _ & Hmove).
  assert (on_target_line (load_from_csv init rows) e a) as Hon
    by (unfold on_target_line; congruence).
  simpl in Hmove.
  destruct Hmove as [(_ & Hseq & ->)|[(Hoff & _)|(Hoff & _)]]; done.
Qed.

Lemma no_transfer_from_target_line_witness :
  false = false ∧
  (prev (obj scenario 3) = Some 4 ∨ next (obj scenario 3) = Some 4).
Proof.
  apply (no_transfer_from_target_line scenario_rows 6 "A" "X" "B" "W"
           [[(0, false); (1, false); (3, true); (4, false)]]
           [(0, false); (1, false); (3, true); (4, false)] 2 3 4 true false).
  - by vm_compute.
  - apply list_elem_of_here.
  - reflexivity.
  - reflexivity.
  - by vm_compute.
Defined.

(** C5. Direct-transfer priority: in every returned path, a stop off the
    end line that had an unvisited transfer station on the end line when it
    was expanded is followed by one of its transfer stations on the end
    line, entered with [is_transfer = True]; the successor is no indirect
    transfer and no sequential neighbour. *)
Theorem direct_transfer_priority (rows : list Row) (fuel : nat)
    (sl sn el en : string) (paths : list (list (ref * bool)))
    (p : list (ref * bool)) (i : nat) (a b : ref) (fa fb : bool) :
  let g := load_from_csv init rows in
  find_route_with fuel g sl sn el en = Ok paths → p ∈ paths →
  p !! i = Some (a, fa) → p !! S i = Some (b, fb) →
  line (obj g a) ≠ el →
  (∃ t r, t ∈ transfer_ids (obj g a) ∧ stations g !! t = Some r ∧
          line (obj g r) = el ∧
          id (obj g r) ∉ path_ids g (take (S i) p)) →
  fb = true ∧
  (∃ t, t ∈ transfer_ids (obj g a) ∧ stations g !! t = Some b) ∧
  line (obj g b) = el ∧
  ¬ (prev (obj g a) = Some b ∨ next (obj g a) = Some b).
Proof.
  intros g Hrun Hp Ha Hb Hline (t & r & Ht & Hr & Hrl & Hnew). subst g.
  destruct (returned_path rows fuel sl sn el en paths p Hrun Hp)
    as (ss & es & s & e & _ & _ & _ & _ & _ & _ & Hel & Htr & _).
  pose proof (trail_lookup _ _ _ _ _ _ _ Htr Ha Hb) as (_ & _ & Hmove).
  simpl in Hmove.
  assert (direct (load_from_csv init rows) e
            (ids_of (load_from_csv init rows) (take (S i) p))
            (transfer_ids (obj (load_from_csv init rows) a)) r)
    as Hdirect.
  { split; [by exists t|]. split; [by rewrite elem_of_ids_of|].
    unfold on_target_line. congruence. }
  destruct Hmove as [(Hon & _)|[(_ & Hd & ->)|(_ & Hnone & _)]].
  - unfold on_target_line in Hon. congruence.
  - destruct Hd as (Hin & _ & Hbl). unfold on_target_line in Hbl.
    split; [done|]. split; [done|]. split; [congruence|].
    intros Hseq. destruct (wf_links _ (load_wf rows) a b Hseq) as [_ Hsame].
    congruence.
  - by destruct (Hnone r).
Qed.

Lemma direct_transfer_priority_witness :
  true = true ∧
  (∃ t, t ∈ transfer_ids (obj scenario 1)
        ∧ stations scenario !! t = Some 3) ∧
  line (obj scenario 3) = "B" ∧
  ¬ (prev (obj scenario 1) = Some 3 ∨ next (obj scenario 1) = Some 3).
Proof.
  apply (direct_transfer_priority scenario_rows 6 "A" "X" "B" "W"
           [[(0, false); (1, false); (3, true); (4, false)]]
           [(0, false); (1, false); (3, true); (4, false)] 1 1 3 false true).
  - by vm_compute.
  - apply list_elem_of_here.
  - reflexivity.
  - reflexivity.
  - by vm_compute.
  - exists 4%Z, 3. split; [apply list_elem_of_here|].
    split; [by vm_compute|]. split; [by vm_compute|].
    vm_compute.
    intros [?|[?|?%elem_of_nil]%elem_of_cons]%elem_of_cons; done.
Defined.

(** C6 as stated fails on a network with a repeated id: [dfs] recognises
    the target by its id, so the search from "X" to "Y" stops at once on
    "X", which carries the same id as "Y". *)
Lemma endpoint_with_repeated_id :
  let g := load_from_csv init duplicate_rows in
  resolve g "A" "Y" = Some 1 ∧
  find_route g "A" "X" "A" "Y" = Ok [[(0, false)]] ∧
  last [(0, false)] ≠ Some (1, false) ∧
  name (obj g 0) = "X".
Proof. by vm_compute. Qed.

(** C6, amended. Every returned path is non-empty, its first stop is the
    first Stop on the start line named as asked, entered with
    [is_transfer = False], and its last stop carries the id of the first
    Stop on the end line named as asked; when the ids of the records are
    pairwise distinct, the last stop is that Stop itself. *)
Theorem endpoints (rows : list Row) (fuel : nat)
    (sl sn el en : string) (paths : list (list (ref * bool)))
    (p : list (ref * bool)) :
  let g := load_from_csv init rows in
  find_route_with fuel g sl sn el en = Ok paths → p ∈ paths →
  ∃ s e x fl,
    resolve g sl sn = Some s ∧ resolve g el en = Some e ∧
    p ≠ [] ∧ head p = Some (s, false) ∧ last p = Some (x, fl) ∧
    id (obj g x) = id (obj g e) ∧
    (NoDup (row_id <$> rows) → x = e).
Proof.
  intros g Hrun Hp. subst g.
  destruct (returned_path rows fuel sl sn el en paths p Hrun Hp)
    as (ss & es & s & e & Hss & Hs & Hes & He & Hsr & Her & _ & Htr & Hlast).
  destruct Hlast as ([x fl] & Hlast & Hid).
  exists s, e, x, fl. unfold resolve. rewrite Hss, Hes. simpl.
  repeat (split; [done|]).
  pose proof (trail_head _ _ _ _ Htr) as Hhead.
  split; [by destruct p|]. repeat (split; [done|]).
  intros Hnd. apply (load_ids_inj rows); [done| |done|done].
  apply (trail_in_range _ e s (load_wf rows) p Hsr Htr (x, fl)).
  apply last_Some_elem_of. done.
Qed.

Lemma endpoints_witness :
  ∃ s e x fl,
    resolve scenario "A" "X" = Some s ∧ resolve scenario "B" "W" = Some e ∧
    [(0, false); (1, false); (3, true); (4, false)] ≠ [] ∧
    head [(0, false); (1, false); (3, true); (4, false)] = Some (s, false) ∧
    last [(0, false); (1, false); (3, true); (4, false)] = Some (x, fl) ∧
    id (obj scenario x) = id (obj scenario e) ∧
    (NoDup (row_id <$> scenario_rows) → x = e).
Proof.
  apply (endpoints scenario_rows 6 "A" "X" "B" "W"
           [[(0, false); (1, false); (3, true); (4, false)]]).
  - by vm_compute.
  - apply list_elem_of_here.
Defined.

(** C7. On the scenario network, [find_route "A" "X" "A" "Z"] returns
    exactly one path; its stop ids are 1, 2, 3 and every transfer flag is
    false. *)
Theorem scenario_same_line :
  ∃ p, find_route scenario "A" "X" "A" "Z" = Ok [p]
       ∧ path_ids scenario p = [1; 2; 3]%Z
       ∧ p.*2 = [false; false; false].
Proof. eexists. by vm_compute. Qed.

(* Determinism of repeated calls (C8) is no theorem here: a call is the
   function [find_route_with] of the network and the query, its search
   state is [init_search] at every call, and the network is only read, so
   two calls agree by reflexivity.  That a completed call does not depend
   on the stack space it was given is part of C9. *)

(** C9. Termination: on every finite network built by [load_from_csv]
    whose transfer ids are all resolvable, and for every query,
    [find_route] terminates: a call stack as deep as the number of
    distinct stop ids is enough for [dfs], each level of which adds an
    unvisited id to [visited]. *)
Theorem find_route_terminates (rows : list Row) (fuel : nat)
    (sl sn el en : string) :
  transfers_resolvable rows →
  size (list_to_set (row_id <$> rows) : gset Z) ≤ fuel →
  let g := load_from_csv init rows in
  ((∃ paths, find_route_with fuel g sl sn el en = Ok paths) ∨
   (find_route_with fuel g sl sn el en = Raise KeyError ∧
    (dict_get (lines g) sl = None ∨ dict_get (lines g) el = None))) ∧
  find_route g sl sn el en = find_route_with fuel g sl sn el en.
Proof.
  intros Hres Hfuel g. subst g.
  pose proof (load_wf rows) as Hwf.
  pose proof (load_resolvable rows Hres) as Hres'.
  assert (∀ f, size (all_ids (load_from_csv init rows)) ≤ f →
               find_route_with f (load_from_csv init rows) sl sn el en
               ≠ OutOfFuel) as Hdone.
  { intros f Hf.
    destruct (find_route_with_returns _ f sl sn el en Hwf Hres' Hf)
      as [[paths ->]|[-> _]]; done. }
  rewrite <- load_all_ids in Hfuel.
  split; [by apply find_route_with_returns|].
  unfold find_route. apply find_route_with_agree; [|by apply Hdone].
  apply Hdone. rewrite load_all_ids, load_length.
  pose proof (size_list_to_set_le (row_id <$> rows)) as Hle.
  rewrite length_fmap in Hle. lia.
Qed.

Lemma find_route_terminates_witness :
  ((∃ paths, find_route_with 5 scenario "A" "X" "B" "W" = Ok paths) ∨
   (find_route_with 5 scenario "A" "X" "B" "W" = Raise KeyError ∧
    (dict_get (lines scenario) "A" = None
     ∨ dict_get (lines scenario) "B" = None))) ∧
  find_route scenario "A" "X" "B" "W"
  = find_route_with 5 scenario "A" "X" "B" "W".
Proof.
  apply (find_route_terminates scenario_rows 5 "A" "X" "B" "W").
  - intros row t Hrow Ht.
    repeat (apply elem_of_cons in Hrow as [-> | Hrow];
            [simpl in Ht;
             first [ by apply elem_of_nil in Ht
                   | apply list_elem_of_singleton in Ht as -> ] |]);
      try (by apply elem_of_nil in Hrow).
    + exists (mkRow 4 "B" "Y" [2%Z]). split; [|done].
      do 3 apply list_elem_of_further. apply list_elem_of_here.
    + exists (mkRow 2 "A" "Y" [4%Z]). split; [|done].
      apply list_elem_of_further. apply list_elem_of_here.
  - by vm_compute.
Defined.

(** C10. Strict simplicity: in every returned path the stop ids are
    pairwise distinct, so the run-capping branch of [get_path_signature]
    drops nothing: the processed ids are all the ids of the path. *)
Theorem returned_paths_simple (self : SubwaySystem) (fuel : nat)
    (sl sn el en : string) (paths : list (list (ref * bool)))
    (p : list (ref * bool)) :
  find_route_with fuel self sl sn el en = Ok paths → p ∈ paths →
  NoDup (path_ids self p) ∧ processed self p = path_ids self p.
Proof.
  intros Hrun Hp.
  destruct (find_route_with_arrived _ _ _ _ _ _ _ Hrun)
    as [-> | (ss & es & s & e & _ & _ & _ & _ & Hall)].
  { by apply elem_of_nil in Hp. }
  eapply Forall_forall in Hall as [Htr _]; [|done].
  pose proof (trail_NoDup _ _ _ _ Htr) as Hnd.
  split; [done|]. by apply (processed_NoDup self []).
Qed.

Lemma returned_paths_simple_witness :
  NoDup (path_ids scenario [(0, false); (1, false); (3, true); (4, false)])
  ∧ processed scenario [(0, false); (1, false); (3, true); (4, false)]
    = path_ids scenario [(0, false); (1, false); (3, true); (4, false)].
Proof.
  apply (returned_paths_simple scenario 6 "A" "X" "B" "W"
           [[(0, false); (1, false); (3, true); (4, false)]]).
  - by vm_compute.
  - apply list_elem_of_here.
Defined.

(** * Further properties of the code *)

Lemma rows_of_line_snoc l base rows row :
  rows_of_line l base (rows ++ [row])
  = rows_of_line l base rows
    ++ (if decide (row_line row = l) then [base + length rows] else []).
Proof.
  revert base. induction rows as [|row0 rows IH]; intros base; simpl.
  - rewrite Nat.add_0_r. by case_decide.
  - rewrite IH. replace (base + S (length rows)) with (S base + length rows)
      by lia.
    by destruct (decide (row_line row0 = l)).
Qed.

Lemma elem_of_rows_of_line l base rows r :
  r ∈ rows_of_line l base rows ↔
  ∃ row, base ≤ r ∧ rows !! (r - base) = Some row ∧ row_line row = l.
Proof.
  revert base. induction rows as [|row0 rows IH]; intros base; simpl.
  - split; [by intros ?%elem_of_nil|by intros (? & _ & ? & _)].
  - assert (r ∈ rows_of_line l (S base) rows ↔
            ∃ row, base < r ∧ rows !! (r - S base) = Some row
                   ∧ row_line row = l) as IH' by apply IH.
    assert (∀ row, base < r →
              (row0 :: rows) !! (r - base) = Some row
              ↔ rows !! (r - S base) = Some row) as Hshift.
    { intros row Hlt. replace (r - base) with (S (r - S base)) by lia.
      done. }
    case_decide as Hl.
    + rewrite elem_of_cons, IH'. split.
      * intros [->|(row & Hlt & Hrow & Hline)].
        -- exists row0. rewrite Nat.sub_diag. done.
        -- exists row. split; [lia|]. by rewrite Hshift.
      * intros (row & Hle & Hrow & Hline).
        destruct (decide (r = base)) as [->|Hne]; [by left|].
        right. exists row. split; [lia|]. rewrite <- Hshift by lia. done.
    + rewrite IH'. split.
      * intros (row & Hlt & Hrow & Hline).
        exists row. split; [lia|]. by rewrite Hshift.
      * intros (row & Hle & Hrow & Hline).
        destruct (decide (r = base)) as [->|Hne].
        { rewrite Nat.sub_diag in Hrow. simpl in Hrow. congruence. }
        exists row. split; [lia|]. rewrite <- Hshift by lia. done.
Qed.

Lemma rows_of_line_increasing l base rows i j ri rj :
  rows_of_line l base rows !! i = Some ri →
  rows_of_line l base rows !! j = Some rj →
  i < j → ri < rj.
Proof.
  revert base i j. induction rows as [|row0 rows IH]; intros base i j; simpl.
  { done. }
  case_decide; [|apply IH].
  destruct i as [|i]; destruct j as [|j]; simpl; try lia.
  - intros [= <-] Hj _.
    apply list_elem_of_lookup_2, elem_of_rows_of_line in Hj
      as (row & Hlt & _).
    lia.
  - intros Hi Hj Hlt. apply (IH (S base) i j); [done..|lia].
Qed.

Lemma rows_loaded_line_exact rows l :
  dict_get (lines (rows_loaded rows)) l
  = match rows_of_line l 0 rows with [] => None | rs => Some rs end.
Proof.
  induction rows as [|row rows IH] using rev_ind; [done|].
  rewrite rows_loaded_snoc, add_row_lines, rows_loaded_length, IH.
  rewrite rows_of_line_snoc. simpl.
  case_decide as Hl.
  - destruct (rows_of_line l 0 rows); simpl; done.
  - by rewrite app_nil_r.
Qed.

Lemma station_eta (s : Station) :
  mkStation (id s) (line s) (name s) (transfer_ids s) (prev s) (next s) = s.
Proof. by destruct s. Qed.

Section link_exact.
Variable ls : list ref.
Hypothesis ls_NoDup : NoDup ls.

Lemma link_at_length os i : length (link_at ls os i) = length os.
Proof.
  unfold link_at, set_prev, set_next.
  repeat case_decide; by rewrite ?length_alter.
Qed.

Lemma link_at_lookup os i j :
  ls !!! i < length os →
  link_at ls os i !!! j
  = if decide (j = ls !!! i) then relinked ls i (os !!! j) else os !!! j.
Proof.
  intros Hr. unfold link_at, set_prev, set_next, relinked.
  destruct (decide (0 < i)); destruct (decide (i < length ls - 1));
    rewrite ?list_lookup_total_alter, ?length_alter;
    destruct (decide (j = ls !!! i)) as [->|Hj];
    repeat (case_decide; simpl); try done;
    try (by rewrite station_eta); try (exfalso; naive_solver).
Qed.

Lemma link_fold os idx :
  (∀ r, r ∈ ls → r < length os) →
  (∀ i, i ∈ idx → i < length ls) → NoDup idx →
  length (foldl (link_at ls) os idx) = length os ∧
  (∀ i, i ∈ idx →
        foldl (link_at ls) os idx !!! (ls !!! i)
        = relinked ls i (os !!! (ls !!! i))) ∧
  (∀ j, (∀ i, i ∈ idx → ls !!! i ≠ j) →
        foldl (link_at ls) os idx !!! j = os !!! j).
Proof.
  revert os. induction idx as [|i idx IH]; intros os Hrange Hidx Hnd; simpl.
  { split; [done|]. split; [by intros ? ?%elem_of_nil|done]. }
  apply NoDup_cons in Hnd as [Hi Hnd].
  assert (i < length ls) as Hilt by (apply Hidx; left).
  assert (ls !!! i < length os) as Hir
    by (by apply Hrange, list_elem_of_lookup_total_2).
  destruct (IH (link_at ls os i)) as (Hlen & Hset & Hkeep); [| |done|].
  { intros r Hr. rewrite link_at_length. by apply Hrange. }
  { intros i' Hi'. apply Hidx. by right. }
  assert (∀ i', i' ∈ idx → ls !!! i' ≠ ls !!! i) as Hother.
  { intros i' Hi' Heq.
    assert (i' < length ls) by (apply Hidx; by right).
    assert (i' = i); [|by subst].
    eapply NoDup_lookup; [exact ls_NoDup|..];
      rewrite list_lookup_lookup_total_lt by done; [done|by rewrite Heq]. }
  rewrite Hlen, link_at_length. split; [done|]. split.
  - intros i' [->|Hi']%elem_of_cons.
    + rewrite Hkeep by done. rewrite link_at_lookup by done.
      by rewrite decide_True.
    + rewrite Hset by done. rewrite link_at_lookup by done.
      rewrite decide_False; [done|]. by apply Hother.
  - intros j Hj. rewrite Hkeep.
    + rewrite link_at_lookup by done. rewrite decide_False; [done|].
      intros ->. apply (Hj i); [left|done].
    + intros i' Hi'. apply Hj. by right.
Qed.

Lemma link_line_exact os :
  (∀ r, r ∈ ls → r < length os) →
  length (link_line os ls) = length os ∧
  (∀ i, i < length ls →
        link_line os ls !!! (ls !!! i) = relinked ls i (os !!! (ls !!! i))) ∧
  (∀ j, j ∉ ls → link_line os ls !!! j = os !!! j).
Proof.
  intros Hrange. unfold link_line.
  destruct (link_fold os (seq 0 (length ls))) as (Hlen & Hset & Hkeep);
    [done| |apply NoDup_seq|].
  { intros i Hi%elem_of_seq. lia. }
  split; [done|]. split.
  - intros i Hi. apply Hset. apply elem_of_seq. lia.
  - intros j Hj. apply Hkeep. intros i Hi%elem_of_seq <-.
    apply Hj. apply list_elem_of_lookup_total_2. lia.
Qed.
End link_exact.

Lemma link_all_exact (lss : list (list ref)) os :
  (∀ k ls, lss !! k = Some ls →
           NoDup ls ∧ ∀ r, r ∈ ls → r < length os) →
  (∀ k1 k2 l1 l2 r, lss !! k1 = Some l1 → lss !! k2 = Some l2 →
                    r ∈ l1 → r ∈ l2 → k1 = k2) →
  length (foldl link_line os lss) = length os ∧
  (∀ k ls i, lss !! k = Some ls → i < length ls →
             foldl link_line os lss !!! (ls !!! i)
             = relinked ls i (os !!! (ls !!! i))) ∧
  (∀ j, (∀ k ls, lss !! k = Some ls → j ∉ ls) →
        foldl link_line os lss !!! j = os !!! j).
Proof.
  revert os. induction lss as [|ls0 lss IH]; intros os Hok Hapart; simpl.
  { split; [done|]. split; [by intros ? ? ? ?|done]. }
  destruct (Hok 0 ls0) as [Hnd0 Hrange0]; [done|].
  destruct (link_line_exact ls0 Hnd0 os Hrange0) as (Hlen0 & Hset0 & Hkeep0).
  destruct (IH (link_line os ls0)) as (Hlen & Hset & Hkeep).
  { intros k ls Hk. destruct (Hok (S k) ls Hk) as [? ?].
    split; [done|]. by rewrite Hlen0. }
  { intros k1 k2 l1 l2 r H1 H2 Hr1 Hr2.
    assert (S k1 = S k2) by (by eapply Hapart). lia. }
  split; [by rewrite Hlen|]. split.
  - intros [|k] ls i Hk Hi; simpl in Hk.
    + injection Hk as <-. rewrite Hkeep; [by apply Hset0|].
      intros k ls Hk Hin.
      assert (0 = S k); [|done].
      eapply (Hapart 0 (S k) ls0 ls); [done..| |done].
      apply list_elem_of_lookup_total_2. done.
    + rewrite (Hset k ls i) by done. rewrite Hkeep0; [done|].
      intros Hin. assert (0 = S k); [|done].
      eapply (Hapart 0 (S k) ls0 ls); [done..|].
      apply list_elem_of_lookup_total_2. done.
  - intros j Hj. rewrite Hkeep.
    + apply Hkeep0. by apply (Hj 0).
    + intros k ls Hk. by apply (Hj (S k)).
Qed.

Section dict_keys.
Context {V : Type}.
Implicit Types (d : list (string * V)) (k : string) (v : V).

Lemma dict_get_None d k : dict_get d k = None ↔ k ∉ d.*1.
Proof.
  induction d as [|[k' v'] d IH]; simpl.
  - split; [intros _ ?%elem_of_nil; done|done].
  - case_decide as Hk; subst.
    + split; [done|]. intros Hk. exfalso. apply Hk. left.
    + rewrite IH. rewrite not_elem_of_cons. naive_solver.
Qed.

Lemma dict_alter_keys (f : V → V) k d : (dict_alter f k d).*1 = d.*1.
Proof.
  induction d as [|[k' v'] d IH]; simpl; [done|].
  case_decide; simpl; [done|]. f_equal. apply IH.
Qed.

Lemma dict_set_keys d k v :
  dict_get d k = None → (dict_set d k v).*1 = d.*1 ++ [k].
Proof.
  induction d as [|[k' v'] d IH]; simpl; [done|].
  case_decide; simpl; [done|]. intros Hk. f_equal. by apply IH.
Qed.

Lemma elem_of_dict_get d k v :
  NoDup d.*1 → (k, v) ∈ d → dict_get d k = Some v.
Proof.
  induction d as [|[k' v'] d IH]; simpl.
  - by intros _ ?%elem_of_nil.
  - intros [Hk' Hnd]%NoDup_cons [[= -> ->]|Hin]%elem_of_cons.
    + by rewrite decide_True.
    + rewrite decide_False; [by apply IH|].
      intros ->. apply Hk'. apply list_elem_of_fmap. by exists (k, v).
Qed.
End dict_keys.

Lemma rows_loaded_keys rows : NoDup (lines (rows_loaded rows)).*1.
Proof.
  induction rows as [|row rows IH] using rev_ind; [constructor|].
  rewrite rows_loaded_snoc. simpl. rewrite dict_alter_keys.
  destruct (dict_get (lines (rows_loaded rows)) (row_line row)) eqn:E;
    [done|].
  rewrite dict_set_keys by done. apply NoDup_app. split; [done|].
  split; [|apply NoDup_singleton].
  intros k Hk ->%list_elem_of_singleton. by apply dict_get_None in E.
Qed.

Lemma increasing_NoDup (l : list nat) :
  (∀ i j x y, l !! i = Some x → l !! j = Some y → i < j → x < y) →
  NoDup l.
Proof.
  intros Hinc. apply NoDup_alt. intros i j x Hi Hj.
  destruct (Nat.lt_trichotomy i j) as [Hlt|[->|Hlt]]; [|done|].
  - pose proof (Hinc i j x x Hi Hj Hlt). lia.
  - pose proof (Hinc j i x x Hj Hi Hlt). lia.
Qed.

Section lines_loaded.
Variable rows : list Row.

Lemma rows_loaded_entry k l rs :
  lines (rows_loaded rows) !! k = Some (l, rs) →
  rs = rows_of_line l 0 rows ∧ rs ≠ [].
Proof.
  intros Hk%list_elem_of_lookup_2.
  apply (elem_of_dict_get _ _ _ (rows_loaded_keys rows)) in Hk.
  rewrite rows_loaded_line_exact in Hk.
  destruct (rows_of_line l 0 rows) eqn:E; by simplify_eq.
Qed.

Lemma rows_loaded_apart :
  (∀ k ls, (lines (rows_loaded rows)).*2 !! k = Some ls →
           NoDup ls ∧ ∀ r, r ∈ ls → r < length (station_of <$> rows)) ∧
  (∀ k1 k2 l1 l2 r,
     (lines (rows_loaded rows)).*2 !! k1 = Some l1 →
     (lines (rows_loaded rows)).*2 !! k2 = Some l2 →
     r ∈ l1 → r ∈ l2 → k1 = k2).
Proof.
  split.
  - intros k ls Hk. rewrite list_lookup_fmap in Hk.
    destruct (lines (rows_loaded rows) !! k) as [[l rs]|] eqn:E;
      simplify_eq/=.
    destruct (rows_loaded_entry _ _ _ E) as [-> _]. split.
    + apply increasing_NoDup. intros i j x y.
      apply rows_of_line_increasing.
    + intros r (row & _ & Hr & _)%elem_of_rows_of_line.
      rewrite Nat.sub_0_r in Hr.
      rewrite length_fmap. by eapply lookup_lt_Some.
  - intros k1 k2 l1 l2 r H1 H2 Hr1 Hr2.
    rewrite list_lookup_fmap in H1, H2.
    destruct (lines (rows_loaded rows) !! k1) as [[n1 rs1]|] eqn:E1;
      simplify_eq/=.
    destruct (lines (rows_loaded rows) !! k2) as [[n2 rs2]|] eqn:E2;
      simplify_eq/=.
    destruct (rows_loaded_entry _ _ _ E1) as [-> _].
    destruct (rows_loaded_entry _ _ _ E2) as [-> _].
    apply elem_of_rows_of_line in Hr1 as (row1 & _ & Hrow1 & Hn1).
    apply elem_of_rows_of_line in Hr2 as (row2 & _ & Hrow2 & Hn2).
    assert (n1 = n2) as -> by congruence.
    eapply NoDup_lookup; [apply (rows_loaded_keys rows)|..];
      rewrite list_lookup_fmap.
    + by rewrite E1.
    + by rewrite E2.
Qed.
End lines_loaded.

Section loaded_links.
Variable rows : list Row.

Lemma load_objs_exact :
  length (objs (load_from_csv init rows)) = length rows ∧
  (∀ k l rs i, lines (rows_loaded rows) !! k = Some (l, rs) →
               i < length rs →
               obj (load_from_csv init rows) (rs !!! i)
               = relinked rs i ((station_of <$> rows) !!! (rs !!! i))).
Proof.
  split; [apply load_length|].
  intros k l rs i Hk Hi.
  destruct (rows_loaded_apart rows) as [Hok Hapart].
  unfold obj, load_from_csv. simpl. fold (rows_loaded rows).
  rewrite rows_loaded_objs. unfold link_all.
  destruct (link_all_exact _ (station_of <$> rows) Hok Hapart)
    as (_ & Hset & _).
  rewrite (Hset k rs i); [done|by rewrite list_lookup_fmap, Hk|done].
Qed.

Lemma station_of_unlinked r :
  prev ((station_of <$> rows) !!! r) = None ∧
  next ((station_of <$> rows) !!! r) = None.
Proof.
  rewrite list_lookup_total_alt, list_lookup_fmap.
  by destruct (rows !! r).
Qed.

Lemma load_links_exact l rs i r :
  dict_get (lines (load_from_csv init rows)) l = Some rs →
  rs !! i = Some r →
  prev (obj (load_from_csv init rows) r)
  = match i with 0 => None | S j => rs !! j end ∧
  next (obj (load_from_csv init rows) r) = rs !! S i.
Proof.
  rewrite load_lines. intros Hl%dict_get_elem Hi.
  apply list_elem_of_lookup in Hl as [k Hk].
  assert (i < length rs) as Hlt by (by eapply lookup_lt_Some).
  destruct load_objs_exact as [_ Hobj].
  pose proof (Hobj k l rs i Hk Hlt) as Hr.
  rewrite (list_lookup_total_correct _ _ _ Hi) in Hr. rewrite Hr.
  destruct (station_of_unlinked r) as [Hp Hn].
  unfold relinked. cbn [prev next]. rewrite Hp, Hn. split.
  - destruct i as [|j]; [by rewrite decide_False by lia|].
    rewrite decide_True by lia. replace (S j - 1) with j by lia.
    symmetry. apply list_lookup_lookup_total_lt. lia.
  - case_decide.
    + rewrite Nat.add_1_r. symmetry.
      apply list_lookup_lookup_total_lt. lia.
    + symmetry. apply lookup_ge_None. lia.
Qed.

Lemma load_located r :
  r < length rows →
  ∃ l rs i, dict_get (lines (load_from_csv init rows)) l = Some rs
            ∧ rs !! i = Some r.
Proof.
  intros Hr. destruct (lookup_lt_is_Some_2 rows r Hr) as [row Hrow].
  destruct (rows_loaded_lines rows r row Hrow) as (rs & Hrs & Hin).
  apply list_elem_of_lookup in Hin as [i Hi].
  exists (row_line row), rs, i. by rewrite load_lines.
Qed.

Lemma load_unlinked r :
  length rows ≤ r →
  prev (obj (load_from_csv init rows) r) = None ∧
  next (obj (load_from_csv init rows) r) = None.
Proof.
  intros Hr. unfold obj. rewrite list_lookup_total_alt.
  rewrite lookup_ge_None_2; [done|]. by rewrite load_length.
Qed.

Lemma load_line_NoDup l rs :
  dict_get (lines (load_from_csv init rows)) l = Some rs → NoDup rs.
Proof.
  rewrite load_lines, rows_loaded_line_exact. intros Hrs.
  assert (rs = rows_of_line l 0 rows) as ->
    by (destruct (rows_of_line l 0 rows); by simplify_eq).
  apply increasing_NoDup. intros i j x y. apply rows_of_line_increasing.
Qed.

Lemma load_links_symmetric a b :
  next (obj (load_from_csv init rows) a) = Some b
  ↔ prev (obj (load_from_csv init rows) b) = Some a.
Proof.
  split.
  - intros Hnext. destruct (decide (a < length rows)) as [Ha|Ha].
    2:{ destruct (load_unlinked a) as [_ Hn]; [lia|]. congruence. }
    destruct (load_located a Ha) as (l & rs & i & Hrs & Hi).
    destruct (load_links_exact l rs i a Hrs Hi) as [_ Hn].
    rewrite Hn in Hnext.
    destruct (load_links_exact l rs (S i) b Hrs Hnext) as [Hp _].
    by rewrite Hp.
  - intros Hprev. destruct (decide (b < length rows)) as [Hb|Hb].
    2:{ destruct (load_unlinked b) as [Hp _]; [lia|]. congruence. }
    destruct (load_located b Hb) as (l & rs & i & Hrs & Hi).
    destruct (load_links_exact l rs i b Hrs Hi) as [Hp _].
    rewrite Hp in Hprev. destruct i as [|j]; [done|].
    destruct (load_links_exact l rs j a Hrs Hprev) as [_ Hn].
    by rewrite Hn.
Qed.
End loaded_links.

(** A returned path with the stops the query resolved to. *)
Lemma returned_trail (self : SubwaySystem) (fuel : nat)
    (sl sn el en : string) (paths : list (list (ref * bool)))
    (p : list (ref * bool)) :
  find_route_with fuel self sl sn el en = Ok paths → p ∈ paths →
  ∃ s e, resolve self sl sn = Some s ∧ resolve self el en = Some e ∧
         arrived self e s p.
Proof.
  intros Hrun Hp.
  destruct (find_route_with_arrived _ _ _ _ _ _ _ Hrun)
    as [-> | (ss & es & s & e & Hss & Hs & Hes & He & Hall)].
  { by apply elem_of_nil in Hp. }
  exists s, e. unfold resolve. rewrite Hss, Hes. simpl.
  repeat (split; [done|]). by eapply Forall_forall in Hall.
Qed.

(** X6. Every hop of a returned route follows the network: a hop entered
    with [is_transfer = True] goes to the Station registered under one of
    the transfer ids of the Station before it, and a hop entered with
    [is_transfer = False] goes to its [prev] or its [next]. *)
Theorem route_hops (self : SubwaySystem) (fuel : nat)
    (sl sn el en : string) (paths : list (list (ref * bool)))
    (p : list (ref * bool)) (i : nat) (a b : ref) (fa fb : bool) :
  find_route_with fuel self sl sn el en = Ok paths → p ∈ paths →
  p !! i = Some (a, fa) → p !! S i = Some (b, fb) →
  (fb = true ∧
   ∃ t, t ∈ transfer_ids (obj self a) ∧ stations self !! t = Some b)
  ∨ (fb = false ∧
     (prev (obj self a) = Some b ∨ next (obj self a) = Some b)).
Proof.
  intros Hrun Hp Ha Hb.
  destruct (returned_trail _ _ _ _ _ _ _ _ Hrun Hp)
    as (s & e & _ & _ & Htr & _).
  pose proof (trail_lookup _ _ _ _ _ _ _ Htr Ha Hb) as (_ & _ & Hmove).
  simpl in Hmove.
  destruct Hmove as [(_ & Hseq & ->)|[(_ & [Ht _] & ->)|(_ & _ & Hc)]].
  - by right.
  - by left.
  - destruct Hc as [[[Ht _] ->]|[Hseq ->]]; [by left|by right].
Qed.

(** X7. A returned route stops at the first Station that carries the id of
    the target: a Station of the route has the target's id exactly when it
    is the last one. *)
Theorem route_target_id_last (self : SubwaySystem) (fuel : nat)
    (sl sn el en : string) (paths : list (list (ref * bool)))
    (p : list (ref * bool)) (e : ref) (i : nat) (a : ref) (fa : bool) :
  find_route_with fuel self sl sn el en = Ok paths → p ∈ paths →
  resolve self el en = Some e → p !! i = Some (a, fa) →
  id (obj self a) = id (obj self e) ↔ S i = length p.
Proof.
  intros Hrun Hp He Ha.
  destruct (returned_trail _ _ _ _ _ _ _ _ Hrun Hp)
    as (s & e' & _ & He' & Htr & (x & Hlast & Hid)).
  assert (e' = e) as -> by congruence.
  assert (i < length p) as Hlt by (by eapply lookup_lt_Some).
  split.
  - intros Hida. destruct (decide (S i = length p)) as [|Hne]; [done|].
    destruct (lookup_lt_is_Some_2 p (S i)) as [[b fb] Hb]; [lia|].
    pose proof (trail_lookup _ _ _ _ _ _ _ Htr Ha Hb) as (Hnot & _).
    done.
  - intros Hi. rewrite last_lookup in Hlast.
    replace (pred (length p)) with i in Hlast by lia.
    by simplify_eq.
Qed.

Section start_cases.
Variable self : SubwaySystem.
Variables (sl sn el en : string) (s e : ref).
Hypothesis Hs : resolve self sl sn = Some s.
Hypothesis He : resolve self el en = Some e.

Lemma find_route_with_resolved fuel :
  find_route_with fuel self sl sn el en
  = st ← dfs fuel self e s false init_search; Ok (all_paths st).
Proof.
  unfold find_route_with. unfold resolve in Hs, He.
  destruct (dict_get (lines self) sl) as [ss|]; [|done].
  destruct (dict_get (lines self) el) as [es|]; [|done].
  simpl in Hs, He. by rewrite Hs, He.
Qed.

Lemma same_id_single fuel :
  id (obj self s) = id (obj self e) →
  find_route_with (S fuel) self sl sn el en = Ok [[(s, false)]].
Proof.
  intros Hid. rewrite find_route_with_resolved. simpl.
  unfold dfs_body. simpl. rewrite decide_False by set_solver.
  rewrite decide_True by done. simpl.
  unfold accept. simpl. rewrite decide_False by set_solver. simpl.
  unfold leave. simpl. rewrite decide_True by set_solver. done.
Qed.

Lemma classify_raises target vis ts acc t :
  t ∈ ts → stations self !! t = None →
  for_each (classify self target vis) ts acc = Raise KeyError.
Proof.
  intros Ht Hnone. revert acc.
  induction ts as [|t0 ts IH]; intros acc; [by apply elem_of_nil in Ht|].
  simpl. apply elem_of_cons in Ht as [->|Ht].
  - assert (classify self target vis t0 acc = Raise KeyError) as ->; [|done].
    unfold classify. by rewrite Hnone.
  - destruct (classify self target vis t0 acc) as [acc'|x|] eqn:Hc; simpl.
    + by apply IH.
    + unfold classify in Hc. destruct (stations self !! t0); [|congruence].
      by repeat case_decide.
    + unfold classify in Hc. destruct (stations self !! t0); [|congruence].
      by repeat case_decide.
Qed.

Lemma broken_transfer_raises fuel t :
  id (obj self s) ≠ id (obj self e) →
  line (obj self s) ≠ line (obj self e) →
  t ∈ transfer_ids (obj self s) → stations self !! t = None →
  find_route_with (S fuel) self sl sn el en = Raise KeyError.
Proof.
  intros Hid Hline Ht Hnone. rewrite find_route_with_resolved. simpl.
  unfold dfs_body. simpl. rewrite decide_False by set_solver.
  rewrite !decide_False by done.
  unfold split_transfers. by erewrite classify_raises.
Qed.
End start_cases.

Section signatures.
Variable self : SubwaySystem.
Variable target : ref.

Lemma accept_sigs st : sigs_kept self st → sigs_kept self (accept self st).
Proof.
  intros [Hnd Hin]. unfold accept. case_decide as Hsig; [done|].
  split; simpl.
  - rewrite fmap_app. apply NoDup_app. split; [done|].
    split; [|apply NoDup_singleton].
    intros x (p & Hx & Hp)%list_elem_of_fmap Hx'%list_elem_of_singleton.
    apply Hsig. rewrite <- Hx', Hx. by apply Hin.
  - intros p [Hp | ->%list_elem_of_singleton]%elem_of_app.
    + apply elem_of_union_r. by apply Hin.
    + apply elem_of_union_l. by apply elem_of_singleton.
Qed.

Lemma leave_sigs current st st' :
  leave self current st = Ok st' → sigs_kept self st → sigs_kept self st'.
Proof.
  unfold leave. destruct (current_path st); [done|].
  case_decide; [|done]. by intros [= <-].
Qed.

Lemma dfs_body_sigs rec current b st st' :
  (∀ r b s s', rec r b s = Ok s' → sigs_kept self s → sigs_kept self s') →
  dfs_body rec self target current b st = Ok st' →
  sigs_kept self st → sigs_kept self st'.
Proof.
  intros Hrec. unfold dfs_body. case_decide; [by intros [= <-]|].
  intros (st2 & Hbody & Hleave)%bind_Ok Hst.
  eapply leave_sigs; [done|].
  assert (sigs_kept self (enter self current b st)) as Hst1 by done.
  assert (∀ (rs : list ref) s s', sigs_kept self s →
            for_each (λ r, rec r true) rs s = Ok s' → sigs_kept self s')
    as Htransfers.
  { intros rs s s' Hs. apply (for_each_inv (sigs_kept self)); [|done].
    intros r s1 s2 _ Hs1 Hr. by eapply Hrec. }
  assert (∀ nbs s s', sigs_kept self s →
            for_each (try_neighbour self rec) nbs s = Ok s' →
            sigs_kept self s') as Hneighbours.
  { intros nbs s s' Hs. apply (for_each_inv (sigs_kept self)); [|done].
    intros [r|] s1 s2 _ Hs1; simpl; [|intros ?; by simplify_eq].
    destruct (decide (id (obj self r) ∈ visited s1));
      [intros ?; by simplify_eq|].
    intros Hr. by eapply Hrec. }
  revert Hbody. repeat case_decide.
  - intros [= <-]. by apply accept_sigs.
  - by apply Hneighbours.
  - intros ([tl ot] & _ & Hrun)%bind_Ok. destruct tl.
    + apply bind_Ok in Hrun as (s1 & Hrun1 & Hrun2).
      eapply Hneighbours; [|done]. by eapply Htransfers.
    + by eapply Htransfers.
Qed.

Lemma dfs_sigs fuel current b st st' :
  dfs fuel self target current b st = Ok st' →
  sigs_kept self st → sigs_kept self st'.
Proof.
  revert current b st st'. induction fuel as [|fuel IH]; [done|].
  intros current b st st'. simpl. by apply dfs_body_sigs.
Qed.
End signatures.

Lemma find_route_with_sigs fuel self sl sn el en paths :
  find_route_with fuel self sl sn el en = Ok paths →
  NoDup (get_path_signature self <$> paths).
Proof.
  unfold find_route_with. repeat case_match; try done;
    try (intros [= <-]; constructor).
  intros (st & Hdfs & [= <-])%bind_Ok.
  eapply dfs_sigs in Hdfs as [Hnd _]; [done|].
  split; [constructor|]. by intros p ?%elem_of_nil.
Qed.

Lemma same_ids_same_signature self p q :
  path_ids self p = path_ids self q →
  get_path_signature self p = get_path_signature self q.
Proof.
  intros Hids. unfold get_path_signature, processed.
  change (foldl (sig_step self) [] p)
    with (foldl (sig_step self) (reverse []) p).
  change (foldl (sig_step self) [] q)
    with (foldl (sig_step self) (reverse []) q).
  by rewrite !processed_walk, Hids.
Qed.

Lemma find_route_with_distinct fuel self sl sn el en paths :
  find_route_with fuel self sl sn el en = Ok paths →
  NoDup (path_ids self <$> paths).
Proof.
  intros Hnd%find_route_with_sigs. apply NoDup_alt. intros i j ids Hi Hj.
  rewrite list_lookup_fmap in Hi, Hj.
  destruct (paths !! i) as [p|] eqn:Ep; [|done].
  destruct (paths !! j) as [q|] eqn:Eq; [|done].
  simpl in Hi, Hj. simplify_eq.
  eapply NoDup_lookup; [exact Hnd|..]; rewrite list_lookup_fmap.
  - by rewrite Ep.
  - rewrite Eq. simpl. f_equal. by apply same_ids_same_signature.
Qed.

Lemma for_each_completes {A S} (I : S → Prop) (body : A → S → outcome S)
    (l : list A) (st : S) :
  (∀ x s, x ∈ l → I s →
          (∃ s', body x s = Ok s' ∧ I s') ∨ body x s = Raise KeyError) →
  I st →
  (∃ st', for_each body l st = Ok st' ∧ I st')
  ∨ for_each body l st = Raise KeyError.
Proof.
  revert st. induction l as [|x l IH]; intros st Hbody HI; simpl.
  - left. by exists st.
  - destruct (Hbody x st) as [(s1 & -> & HI1) | ->]; [left|done| |by right].
    simpl. apply IH; [|done]. intros y s Hy. apply Hbody. by right.
Qed.

Section completion.
Variable self : SubwaySystem.
Variable target : ref.
Hypothesis Hwf : wf self.

Lemma classify_completes vis ts acc :
  (∃ acc', for_each (classify self target vis) ts acc = Ok acc')
  ∨ for_each (classify self target vis) ts acc = Raise KeyError.
Proof.
  destruct (for_each_completes (λ _, True) (classify self target vis) ts acc)
    as [(acc' & ? & _)|?]; [|done|left; by exists acc'|by right].
  intros t a _ _. unfold classify.
  destruct (stations self !! t); [|by right].
  left. repeat case_decide; eauto.
Qed.

Lemma dfs_completes fuel current b st :
  current < length (objs self) →
  id (obj self current) ∉ visited st →
  size (all_ids self ∖ visited st) ≤ fuel →
  (∃ st', dfs fuel self target current b st = Ok st')
  ∨ dfs fuel self target current b st = Raise KeyError.
Proof.
  revert current b st.
  induction fuel as [|fuel IH]; intros current b st Hcur Hnew Hsize.
  { exfalso.
    assert ({[id (obj self current)]} ⊆ all_ids self ∖ visited st) as Hsub.
    { pose proof (obj_id_known self current Hcur). set_solver. }
    apply subseteq_size in Hsub. rewrite size_singleton in Hsub. lia. }
  simpl. unfold dfs_body. rewrite decide_False by done.
  set (st1 := enter self current b st).
  assert (size (all_ids self ∖ visited st1) ≤ fuel) as Hsize1.
  { assert (all_ids self ∖ visited st1 ⊂ all_ids self ∖ visited st)
      as Hsub.
    { pose proof (obj_id_known self current Hcur). simpl. set_solver. }
    apply subset_size in Hsub. lia. }
  assert (∀ r f s, r < length (objs self) →
                   id (obj self r) ∉ visited st1 → framed st1 s →
                   (∃ s', dfs fuel self target r f s = Ok s'
                          ∧ framed st1 s')
                   ∨ dfs fuel self target r f s = Raise KeyError) as Hcall.
  { intros r f s Hr Hv Hfr.
    destruct (IH r f s) as [[s' Hs'] | Hs']; [done|..|by right].
    - by destruct Hfr as [-> _].
    - by destruct Hfr as [-> _].
    - left. exists s'. split; [done|].
      eapply framed_trans; [done|]. by eapply dfs_frame. }
  assert (∀ (rs : list ref) s,
            (∀ r, r ∈ rs → r < length (objs self)
                           ∧ id (obj self r) ∉ visited st1) →
            framed st1 s →
            (∃ s', for_each (λ r, dfs fuel self target r true) rs s = Ok s'
                   ∧ framed st1 s')
            ∨ for_each (λ r, dfs fuel self target r true) rs s
              = Raise KeyError) as Htransfers.
  { intros rs s Hrs. apply for_each_completes.
    intros r s0 Hr Hfr. destruct (Hrs r Hr). by apply Hcall. }
  assert (∀ s, framed st1 s →
            (∃ s', for_each (try_neighbour self (dfs fuel self target))
                     [prev (obj self current); next (obj self current)] s
                   = Ok s' ∧ framed st1 s')
            ∨ for_each (try_neighbour self (dfs fuel self target))
                [prev (obj self current); next (obj self current)] s
              = Raise KeyError) as Hneighbours.
  { intros s. apply for_each_completes.
    intros [r|] s0 Hr Hfr; simpl; [|left; by exists s0].
    destruct (decide (id (obj self r) ∈ visited s0)) as [|Hv];
      [left; by exists s0|].
    assert (sequential (obj self current) r) as Hseq.
    { apply elem_of_cons in Hr as [Hr|Hr]; [by left|].
      apply list_elem_of_singleton in Hr. by right. }
    destruct (wf_links self Hwf _ _ Hseq) as [Hrange _].
    apply Hcall; [done| |done]. by destruct Hfr as [<- _]. }
  assert ((∃ st2,
      (if decide (id (obj self current) = id (obj self target))
       then Ok (accept self st1)
       else if decide (line (obj self current) = line (obj self target))
       then for_each (try_neighbour self (dfs fuel self target))
              [prev (obj self current); next (obj self current)] st1
       else
         '(target_line_transfers, other_transfers) ←
           split_transfers self target (visited st1)
                           (transfer_ids (obj self current));
         match target_line_transfers with
         | _ :: _ => for_each (λ r, dfs fuel self target r true)
                              target_line_transfers st1
         | [] =>
             st' ← for_each (λ r, dfs fuel self target r true)
                            other_transfers st1;
             for_each (try_neighbour self (dfs fuel self target))
                      [prev (obj self current); next (obj self current)] st'
         end) = Ok st2 ∧ framed st1 st2)
    ∨
      (if decide (id (obj self current) = id (obj self target))
       then Ok (accept self st1)
       else if decide (line (obj self current) = line (obj self target))
       then for_each (try_neighbour self (dfs fuel self target))
              [prev (obj self current); next (obj self current)] st1
       else
         '(target_line_transfers, other_transfers) ←
           split_transfers self target (visited st1)
                           (transfer_ids (obj self current));
         match target_line_transfers with
         | _ :: _ => for_each (λ r, dfs fuel self target r true)
                              target_line_transfers st1
         | [] =>
             st' ← for_each (λ r, dfs fuel self target r true)
                            other_transfers st1;
             for_each (try_neighbour self (dfs fuel self target))
                      [prev (obj self current); next (obj self current)] st'
         end) = Raise KeyError) as [(st2 & -> & Hfr2) | ->].
  { destruct (decide (id (obj self current) = id (obj self target))).
    { left. eexists. split; [done|]. apply accept_frame. }
    destruct (decide (line (obj self current) = line (obj self target))).
    { by apply Hneighbours. }
    unfold split_transfers.
    destruct (classify_completes (visited st1)
                (transfer_ids (obj self current)) ([], []))
      as [[[tl ot] Hsplit] | ->]; [|by right].
    rewrite Hsplit. simpl.
    apply split_transfers_spec in Hsplit as [Htl Hot].
    assert (∀ r, r ∈ tl → r < length (objs self)
                           ∧ id (obj self r) ∉ visited st1) as Htl'.
    { intros r ((t & _ & Ht) & Hv & _)%Htl.
      split; [by eapply wf_stations|done]. }
    assert (∀ r, r ∈ ot → r < length (objs self)
                           ∧ id (obj self r) ∉ visited st1) as Hot'.
    { intros r ((t & _ & Ht) & Hv & _)%Hot.
      split; [by eapply wf_stations|done]. }
    destruct tl as [|t0 tl]; [|by apply Htransfers].
    destruct (Htransfers ot st1 Hot') as [(s1 & -> & Hfr1) | ->];
      [done| |by right].
    simpl. by apply Hneighbours. }
  - simpl.
    destruct (leave_enter self current b st st2 Hnew Hfr2) as (s & Hs & _).
    left. by exists s.
  - by right.
Qed.
End completion.

Lemma find_route_with_completes (self : SubwaySystem) (fuel : nat)
    (sl sn el en : string) :
  wf self → size (all_ids self) ≤ fuel →
  (∃ paths, find_route_with fuel self sl sn el en = Ok paths) ∨
  find_route_with fuel self sl sn el en = Raise KeyError.
Proof.
  intros Hwf Hfuel. unfold find_route_with.
  destruct (dict_get (lines self) sl) as [ss|] eqn:Hss; [|by right].
  destruct (dict_get (lines self) el) as [es|] eqn:Hes; [|by right].
  destruct (first_named self ss sn) as [s|] eqn:Hs; [|left; by exists []].
  destruct (first_named self es en) as [e|] eqn:He; [|left; by exists []].
  apply first_named_Some in Hs as [Hs _].
  destruct (wf_lines _ Hwf _ _ _ Hss Hs) as [Hrange _].
  destruct (dfs_completes self e Hwf fuel s false init_search)
    as [[st ->] | ->]; [done|set_solver| |left; by exists (all_paths st)
                       |by right].
  simpl. by rewrite difference_empty_L.
Qed.

Lemma trail_flags_line self target start p :
  wf self → trail self target start p →
  (∀ e, e ∈ p → e.2 = false) →
  ∀ e, e ∈ p → line (obj self e.1) = line (obj self start).
Proof.
  intros Hwf. induction 1 as [|p from b e Htr IH Hmove]; intros Hflags x.
  - by intros ->%list_elem_of_singleton.
  - assert (∀ y, y ∈ p ++ [(from, b)] →
                 line (obj self y.1) = line (obj self start)) as IH'.
    { apply IH. intros y Hy. apply Hflags, elem_of_app. by left. }
    intros [Hx | ->%list_elem_of_singleton]%elem_of_app; [by apply IH'|].
    assert (e.2 = false) as He
      by (apply Hflags, elem_of_app; right; by apply list_elem_of_singleton).
    assert (line (obj self from) = line (obj self start)) as Hfrom.
    { apply (IH' (from, b)), elem_of_app. right.
      by apply list_elem_of_singleton. }
    assert (sequential (obj self from) e.1) as Hseq.
    { destruct Hmove as (_ & _ & [(_ & ? & _)|[(_ & _ & ?)|(_ & _ & Hc)]]);
        [done|congruence|].
      destruct Hc as [[_ ?]|[? _]]; [congruence|done]. }
    destruct (wf_links self Hwf _ _ Hseq) as [_ Hline]. congruence.
Qed.

Section loaded_routes.
Variable rows : list Row.
Variables (fuel : nat) (sl sn el en : string).
Variable paths : list (list (ref * bool)).
Hypothesis Hrun :
  find_route_with fuel (load_from_csv init rows) sl sn el en = Ok paths.

Lemma returned_path_lines p :
  p ∈ paths →
  ∃ s e, s < length (objs (load_from_csv init rows)) ∧
         line (obj (load_from_csv init rows) s) = sl ∧
         line (obj (load_from_csv init rows) e) = el ∧
         e < length (objs (load_from_csv init rows)) ∧
         arrived (load_from_csv init rows) e s p.
Proof.
  intros Hp.
  destruct (find_route_with_arrived _ _ _ _ _ _ _ Hrun)
    as [-> | (ss & es & s & e & Hss & Hs & Hes & He & Hall)].
  { by apply elem_of_nil in Hp. }
  pose proof (load_wf rows) as Hwf.
  apply first_named_Some in Hs as [Hs _].
  apply first_named_Some in He as [He _].
  destruct (wf_lines _ Hwf _ _ _ Hss Hs) as [? ?].
  destruct (wf_lines _ Hwf _ _ _ Hes He) as [? ?].
  exists s, e. repeat (split; [done|]). by eapply Forall_forall in Hall.
Qed.

Lemma cross_line_has_transfer p :
  NoDup (row_id <$> rows) → sl ≠ el → p ∈ paths →
  ∃ i a, p !! i = Some (a, true).
Proof.
  intros Hnd Hlines Hp.
  destruct (returned_path_lines p Hp)
    as (s & e & Hsr & Hsl & Hel & Her & Htr & ([x fl] & Hlast & Hid)).
  destruct (decide (true ∈ p.*2)) as [Hin|Hnone].
  { apply list_elem_of_fmap in Hin as ([a f] & Hf & Hin). simpl in Hf.
    subst f. apply list_elem_of_lookup in Hin as [i Hi]. by exists i, a. }
  exfalso. apply Hlines.
  assert (∀ y, y ∈ p → y.2 = false) as Hflags.
  { intros [a f] Hy. destruct f; [|done]. exfalso. apply Hnone.
    apply list_elem_of_fmap. by exists (a, true). }
  pose proof (load_wf rows) as Hwf.
  assert ((x, fl) ∈ p) as Hx by (by apply last_Some_elem_of).
  pose proof (trail_flags_line _ _ _ _ Hwf Htr Hflags _ Hx) as Hline.
  assert (x = e) as ->.
  { apply (load_ids_inj rows); [done| |done|done].
    by apply (trail_in_range _ e s Hwf p Hsr Htr (x, fl)). }
  simpl in Hline. congruence.
Qed.

Lemma route_length_bound p :
  p ∈ paths →
  length p ≤ size (list_to_set (row_id <$> rows) : gset Z).
Proof.
  intros Hp.
  destruct (returned_path_lines p Hp)
    as (s & e & Hsr & _ & _ & _ & Htr & _).
  pose proof (load_wf rows) as Hwf.
  pose proof (trail_NoDup _ _ _ _ Htr) as Hnd.
  rewrite <- load_all_ids.
  replace (length p)
    with (size (list_to_set (path_ids (load_from_csv init rows) p)
                : gset Z)).
  2:{ rewrite size_list_to_set by done. unfold path_ids.
      by rewrite length_fmap. }
  apply subseteq_size. intros k Hk%elem_of_list_to_set.
  apply list_elem_of_fmap in Hk as (y & -> & Hy).
  apply obj_id_known. by apply (trail_in_range _ e s Hwf p Hsr Htr y).
Qed.
End loaded_routes.

Lemma any_named_resolves self stops wanted :
  any_named self stops wanted = true ↔
  is_Some (first_named self stops wanted).
Proof.
  unfold any_named, first_named. induction stops as [|r stops IH]; simpl.
  - split; [done|by intros [? ?]].
  - destruct (bool_decide (name (obj self r) = wanted)); simpl; [|done].
    split; [by eexists|done].
Qed.

(** X15. The station check of [main] (lines 238-243) passes exactly when
    [find_route] resolves the station (lines 101-102).  So when the four
    checks of [main] have passed, the call at line 245 neither raises on a
    line lookup nor leaves by the early return of line 105: its result is
    the [all_paths] of the search from the resolved start to the resolved
    end. *)
Theorem checked_query_searches (self : SubwaySystem) (fuel : nat)
    (sl ss el es : string) (s_stops e_stops : list ref) :
  dict_get (lines self) sl = Some s_stops →
  dict_get (lines self) el = Some e_stops →
  (any_named self s_stops ss = true ↔ is_Some (resolve self sl ss)) ∧
  (any_named self e_stops es = true ↔ is_Some (resolve self el es)) ∧
  (any_named self s_stops ss = true → any_named self e_stops es = true →
   ∃ s e, resolve self sl ss = Some s ∧ resolve self el es = Some e ∧
          find_route_with fuel self sl ss el es
          = st ← dfs fuel self e s false init_search; Ok (all_paths st)).
Proof.
  intros Hsl Hel.
  assert (resolve self sl ss = first_named self s_stops ss) as Hrs
    by (unfold resolve; by rewrite Hsl).
  assert (resolve self el es = first_named self e_stops es) as Hre
    by (unfold resolve; by rewrite Hel).
  rewrite Hrs, Hre. split; [apply any_named_resolves|].
  split; [apply any_named_resolves|].
  intros [s Hs]%any_named_resolves [e He]%any_named_resolves.
  exists s, e. repeat (split; [done|]).
  unfold find_route_with. by rewrite Hsl, Hel, Hs, He.
Qed.

Lemma checked_query_searches_witness :
  (any_named scenario [0; 1; 2] "X" = true
   ↔ is_Some (resolve scenario "A" "X")) ∧
  (any_named scenario [3; 4] "W" = true
   ↔ is_Some (resolve scenario "B" "W")) ∧
  (any_named scenario [0; 1; 2] "X" = true →
   any_named scenario [3; 4] "W" = true →
   ∃ s e, resolve scenario "A" "X" = Some s ∧
          resolve scenario "B" "W" = Some e ∧
          find_route_with 6 scenario "A" "X" "B" "W"
          = st ← dfs 6 scenario e s false init_search; Ok (all_paths st)).
Proof.
  apply (checked_query_searches scenario 6 "A" "X" "B" "W"); by vm_compute.
Defined.

(** X1. [load_from_csv] creates one Station per record, in input order, and
    the Station of a record keeps its id, line, name and transfer ids
    through the linking pass. *)
Theorem load_objects (rows : list Row) (r : nat) (row : Row) :
  rows !! r = Some row →
  let g := load_from_csv init rows in
  length (objs g) = length rows ∧
  id (obj g r) = row_id row ∧ line (obj g r) = row_line row ∧
  name (obj g r) = row_name row ∧
  transfer_ids (obj g r) = row_transfers row.
Proof.
  intros Hrow g. subst g. split; [apply load_length|].
  by apply load_obj_fields.
Qed.

Lemma load_objects_witness :
  let g := load_from_csv init scenario_rows in
  length (objs g) = 5 ∧
  id (obj g 1) = 2%Z ∧ line (obj g 1) = "A" ∧ name (obj g 1) = "Y" ∧
  transfer_ids (obj g 1) = [4%Z].
Proof.
  apply (load_objects scenario_rows 1 (mkRow 2 "A" "Y" [4%Z])).
  reflexivity.
Defined.

(** X2. [self.lines] groups the records by line: a line name is a key
    exactly when some record names it, and its list holds exactly the
    records of that line, in input order. *)
Theorem load_line_lists (rows : list Row) (l : string) :
  let g := load_from_csv init rows in
  (dict_get (lines g) l = None ↔ ∀ row, row ∈ rows → row_line row ≠ l) ∧
  ∀ rs, dict_get (lines g) l = Some rs →
        (∀ r, r ∈ rs ↔ ∃ row, rows !! r = Some row ∧ row_line row = l) ∧
        (∀ i j ri rj, rs !! i = Some ri → rs !! j = Some rj →
                      i < j → ri < rj).
Proof.
  intros g. subst g. rewrite load_lines, rows_loaded_line_exact.
  assert (∀ r, r ∈ rows_of_line l 0 rows ↔
               ∃ row, rows !! r = Some row ∧ row_line row = l) as Helem.
  { intros r. rewrite elem_of_rows_of_line, Nat.sub_0_r.
    split; intros (row & H); exists row; [tauto|].
    split; [lia|tauto]. }
  split.
  - split.
    + intros Hnone row [r Hr]%list_elem_of_lookup Hline.
      assert (r ∈ rows_of_line l 0 rows) as Hin
        by (apply Helem; by exists row).
      destruct (rows_of_line l 0 rows); [|done].
      by apply elem_of_nil in Hin.
    + intros Hno. destruct (rows_of_line l 0 rows) as [|r rs] eqn:E; [done|].
      destruct (proj1 (Helem r)) as (row & Hr & Hline); [left|].
      exfalso. apply (Hno row); [by eapply list_elem_of_lookup_2|done].
  - intros rs Hrs.
    assert (rs = rows_of_line l 0 rows) as ->
      by (destruct (rows_of_line l 0 rows); by simplify_eq).
    split; [done|]. intros i j ri rj. apply rows_of_line_increasing.
Qed.

(** X3. The linking pass sets [prev] and [next] to the neighbours on the
    line: the Station at position [i] of a line has the Station at
    position [i-1] as [prev] ([None] at the head of the line) and the one
    at position [i+1] as [next] ([None] at the end). *)
Theorem neighbours_on_line (rows : list Row) (l : string) (rs : list ref)
    (i : nat) (r : ref) :
  let g := load_from_csv init rows in
  dict_get (lines g) l = Some rs → rs !! i = Some r →
  prev (obj g r) = match i with 0 => None | S j => rs !! j end ∧
  next (obj g r) = rs !! S i.
Proof. intros g. subst g. apply load_links_exact. Qed.

Lemma neighbours_on_line_witness :
  prev (obj scenario 1) = Some 0 ∧ next (obj scenario 1) = Some 2.
Proof.
  apply (neighbours_on_line scenario_rows "A" [0; 1; 2] 1 1); by vm_compute.
Defined.

(** X4. Sequential links are consistent: [a.next] is [b] exactly when
    [b.prev] is [a]. *)
Theorem prev_next_symmetric (rows : list Row) (a b : ref) :
  let g := load_from_csv init rows in
  next (obj g a) = Some b ↔ prev (obj g b) = Some a.
Proof. intros g. subst g. apply load_links_symmetric. Qed.

(** X5. [self.stations] has exactly the ids of the records as keys, and
    the Station found under a key carries that id. *)
Theorem load_stations_keys (rows : list Row) (k : Z) :
  let g := load_from_csv init rows in
  (is_Some (stations g !! k) ↔ ∃ row, row ∈ rows ∧ row_id row = k) ∧
  ∀ r, stations g !! k = Some r →
       r < length (objs g) ∧ id (obj g r) = k.
Proof.
  intros g. subst g. rewrite load_stations. split.
  - split.
    + intros [r (row & Hrow & Hid & _)%rows_loaded_stations].
      exists row. split; [by eapply list_elem_of_lookup_2|done].
    + intros (row & [r Hr]%list_elem_of_lookup & <-).
      destruct (stations_some_later rows r row Hr) as (k & _ & Hk).
      rewrite load_stations in Hk. by exists k.
  - intros r (row & Hrow & Hid & _)%rows_loaded_stations.
    split.
    + rewrite load_length. by eapply lookup_lt_Some.
    + by destruct (load_obj_fields rows r row Hrow) as [-> _].
Qed.

Lemma route_hops_witness :
  (true = true ∧
   ∃ t, t ∈ transfer_ids (obj scenario 1) ∧ stations scenario !! t = Some 3)
  ∨ (true = false ∧
     (prev (obj scenario 1) = Some 3 ∨ next (obj scenario 1) = Some 3)).
Proof.
  apply (route_hops scenario 6 "A" "X" "B" "W"
           [[(0, false); (1, false); (3, true); (4, false)]]
           [(0, false); (1, false); (3, true); (4, false)] 1 1 3 false true).
  - by vm_compute.
  - left.
  - reflexivity.
  - reflexivity.
Defined.

Lemma route_target_id_last_witness :
  id (obj scenario 3) = id (obj scenario 4) ↔
  3 = length [(0, false); (1, false); (3, true); (4, false)].
Proof.
  apply (route_target_id_last scenario 6 "A" "X" "B" "W"
           [[(0, false); (1, false); (3, true); (4, false)]]
           [(0, false); (1, false); (3, true); (4, false)] 4 2 3 true).
  - by vm_compute.
  - left.
  - by vm_compute.
  - reflexivity.
Defined.

(** X8. The signature set removes every repetition: no two returned routes
    have the same signature, and no two have the same sequence of ids. *)
Theorem routes_distinct (self : SubwaySystem) (fuel : nat)
    (sl sn el en : string) (paths : list (list (ref * bool))) :
  find_route_with fuel self sl sn el en = Ok paths →
  NoDup (get_path_signature self <$> paths) ∧
  NoDup (path_ids self <$> paths).
Proof.
  intros Hrun. split.
  - by eapply find_route_with_sigs.
  - by eapply find_route_with_distinct.
Qed.

Lemma routes_distinct_witness :
  let g := load_from_csv init fork_rows in
  NoDup (get_path_signature g
           <$> [[(0, false); (1, true); (2, false)];
                [(0, false); (3, true); (2, false)]]) ∧
  NoDup (path_ids g
           <$> [[(0, false); (1, true); (2, false)];
                [(0, false); (3, true); (2, false)]]).
Proof.
  apply (routes_distinct (load_from_csv init fork_rows) 5 "A" "S" "B" "T").
  by vm_compute.
Defined.

(** X9. When the start resolves to a Station with the id of the target (in
    particular when both are the same Station), [find_route] returns the
    single route that holds the start alone, not marked as a transfer. *)
Theorem same_id_route (self : SubwaySystem) (sl sn el en : string)
    (s e : ref) :
  resolve self sl sn = Some s → resolve self el en = Some e →
  id (obj self s) = id (obj self e) →
  find_route self sl sn el en = Ok [[(s, false)]].
Proof.
  intros Hs He Hid. unfold find_route. by eapply same_id_single.
Qed.

Lemma same_id_route_witness :
  find_route scenario "A" "Y" "A" "Y" = Ok [[(1, false)]].
Proof.
  apply (same_id_route scenario "A" "Y" "A" "Y" 1 1); by vm_compute.
Defined.

(** X10. A transfer id that is no key of [self.stations] makes [find_route]
    raise KeyError as soon as the search starts from a Station that lists
    it, is off the target line and has another id than the target. *)
Theorem broken_transfer_key_error (self : SubwaySystem)
    (sl sn el en : string) (s e : ref) (t : Z) :
  resolve self sl sn = Some s → resolve self el en = Some e →
  id (obj self s) ≠ id (obj self e) →
  line (obj self s) ≠ line (obj self e) →
  t ∈ transfer_ids (obj self s) → stations self !! t = None →
  find_route self sl sn el en = Raise KeyError.
Proof.
  intros Hs He Hid Hline Ht Hnone. unfold find_route.
  by eapply broken_transfer_raises.
Qed.

Lemma broken_transfer_key_error_witness :
  find_route (load_from_csv init broken_rows) "A" "X" "B" "Y"
  = Raise KeyError.
Proof.
  apply (broken_transfer_key_error (load_from_csv init broken_rows)
           "A" "X" "B" "Y" 0 1 9%Z); try by vm_compute.
  vm_compute. left.
Defined.

(** Whether every transfer id of the rows is the id of a row can be
    decided; when it is not, a row and a transfer id show it. *)
Lemma transfers_resolvable_or_not (rows : list Row) :
  transfers_resolvable rows ∨
  ∃ row t, row ∈ rows ∧ t ∈ row_transfers row ∧
           ∀ row', row' ∈ rows → row_id row' ≠ t.
Proof.
  destruct (decide (Forall (λ row,
              Forall (λ t, t ∈ row_id <$> rows) (row_transfers row)) rows))
    as [Hall|Hnot].
  - left. intros row t Hrow Ht.
    rewrite Forall_forall in Hall. pose proof (Hall row Hrow) as Hts.
    rewrite Forall_forall in Hts. pose proof (Hts t Ht) as Hin.
    apply list_elem_of_fmap in Hin as (row' & -> & Hrow').
    by exists row'.
  - right. apply not_Forall_Exists in Hnot; [|apply _].
    apply Exists_exists in Hnot as (row & Hrow & Hts). simpl in Hts.
    apply not_Forall_Exists in Hts; [|apply _].
    apply Exists_exists in Hts as (t & Ht & Hno). simpl in Hno.
    exists row, t. repeat (split; [done|]).
    intros row' Hrow' Hid. apply Hno. apply list_elem_of_fmap.
    by exists row'.
Qed.

(** X11. On every loaded network, with a call stack as deep as the number
    of distinct ids, [find_route] either returns a list of routes or
    raises KeyError; and it raises only when one of the two line names is
    no key of [self.lines] or some record lists a transfer id that is the
    id of no record.  On a network where these lookups all succeed,
    neither [current_path.pop()] nor [visited.remove] raises. *)
Theorem find_route_raises_only_on_lookup (rows : list Row) (fuel : nat)
    (sl sn el en : string) :
  size (list_to_set (row_id <$> rows) : gset Z) ≤ fuel →
  let g := load_from_csv init rows in
  (∃ paths, find_route_with fuel g sl sn el en = Ok paths) ∨
  (find_route_with fuel g sl sn el en = Raise KeyError ∧
   (dict_get (lines g) sl = None ∨ dict_get (lines g) el = None ∨
    ∃ row t, row ∈ rows ∧ t ∈ row_transfers row ∧
             ∀ row', row' ∈ rows → row_id row' ≠ t)).
Proof.
  intros Hfuel g. subst g. rewrite <- load_all_ids in Hfuel.
  destruct (transfers_resolvable_or_not rows) as [Hres|Hbroken].
  - destruct (find_route_with_returns _ fuel sl sn el en (load_wf rows)
                (load_resolvable rows Hres) Hfuel)
      as [Hok|[Hraise [Hnone|Hnone]]]; [by left|right; auto..].
  - destruct (find_route_with_completes _ fuel sl sn el en (load_wf rows)
                Hfuel) as [Hok|Hraise]; [by left|right; auto].
Qed.

Lemma find_route_raises_only_on_lookup_witness :
  let g := load_from_csv init broken_rows in
  (∃ paths, find_route_with 2 g "A" "X" "B" "Y" = Ok paths) ∨
  (find_route_with 2 g "A" "X" "B" "Y" = Raise KeyError ∧
   (dict_get (lines g) "A" = None ∨ dict_get (lines g) "B" = None ∨
    ∃ row t, row ∈ broken_rows ∧ t ∈ row_transfers row ∧
             ∀ row', row' ∈ broken_rows → row_id row' ≠ t)).
Proof.
  apply (find_route_raises_only_on_lookup broken_rows 2 "A" "X" "B" "Y").
  by vm_compute.
Defined.

(** X12. On a loaded network with pairwise distinct ids, every route
    between two different lines has a hop marked as a transfer. *)
Theorem cross_line_transfer (rows : list Row) (fuel : nat)
    (sl sn el en : string) (paths : list (list (ref * bool)))
    (p : list (ref * bool)) :
  find_route_with fuel (load_from_csv init rows) sl sn el en = Ok paths →
  NoDup (row_id <$> rows) → sl ≠ el → p ∈ paths →
  ∃ i a, p !! i = Some (a, true).
Proof.
  intros Hrun.
  by apply (cross_line_has_transfer rows fuel sl sn el en paths).
Qed.

Lemma cross_line_transfer_witness :
  ∃ i a, [(0, false); (1, false); (3, true); (4, false)] !! i
         = Some (a, true).
Proof.
  apply (cross_line_transfer scenario_rows 6 "A" "X" "B" "W"
           [[(0, false); (1, false); (3, true); (4, false)]]).
  - by vm_compute.
  - apply (bool_decide_unpack _). by vm_compute.
  - done.
  - left.
Defined.

(** X13. A route on a loaded network is never longer than the number of
    distinct ids of the records. *)
Theorem route_length_le_ids (rows : list Row) (fuel : nat)
    (sl sn el en : string) (paths : list (list (ref * bool)))
    (p : list (ref * bool)) :
  find_route_with fuel (load_from_csv init rows) sl sn el en = Ok paths →
  p ∈ paths →
  length p ≤ size (list_to_set (row_id <$> rows) : gset Z).
Proof.
  intros Hrun. by apply (route_length_bound rows fuel sl sn el en paths).
Qed.

Lemma route_length_le_ids_witness :
  length [(0, false); (1, false); (3, true); (4, false)]
  ≤ size (list_to_set (row_id <$> scenario_rows) : gset Z).
Proof.
  apply (route_length_le_ids scenario_rows 6 "A" "X" "B" "W"
           [[(0, false); (1, false); (3, true); (4, false)]]).
  - by vm_compute.
  - left.
Defined.

Lemma corridor_head self target fwd back vis cur c :
  corridor self target fwd back vis cur c →
  line (obj self cur) = line (obj self target) ∧
  (id (obj self cur) ∉ vis) ∧
  blocked self vis (back (obj self cur)).
Proof. destruct c; simpl; tauto. Qed.

Lemma search_state_eta (st : SearchState) :
  mkSearchState (visited st) (current_path st) (all_paths st)
                (path_signatures st) = st.
Proof. by destruct st. Qed.

Lemma leave_entered self cur b st :
  id (obj self cur) ∉ visited st →
  leave self cur (enter self cur b st) = Ok st.
Proof.
  intros Hnew. unfold leave, enter. cbn [current_path visited all_paths
    path_signatures].
  destruct (current_path st ++ [(cur, b)]) eqn:E.
  { by apply app_nil in E as [_ ?]. }
  rewrite <- E. rewrite decide_True by set_solver.
  rewrite removelast_last.
  replace (({[id (obj self cur)]} ∪ visited st) ∖ {[id (obj self cur)]})
    with (visited st) by set_solver.
  by rewrite search_state_eta.
Qed.

Lemma leave_noted self cur b p st :
  id (obj self cur) ∉ visited st →
  leave self cur (noted self p (enter self cur b st))
  = Ok (noted self p st).
Proof.
  intros Hnew. unfold noted.
  cbn [path_signatures enter].
  destruct (decide (get_path_signature self p ∈ path_signatures st)).
  { by apply leave_entered. }
  unfold leave, enter. cbn [current_path visited all_paths path_signatures].
  destruct (current_path st ++ [(cur, b)]) eqn:E.
  { by apply app_nil in E as [_ ?]. }
  rewrite <- E. rewrite decide_True by set_solver.
  rewrite removelast_last.
  by replace (({[id (obj self cur)]} ∪ visited st) ∖ {[id (obj self cur)]})
    with (visited st) by set_solver.
Qed.

Lemma walked_visited self target cur b c st :
  visited (walked self target cur b c st) = visited st.
Proof.
  unfold walked, noted. destruct (ahead self target cur c); [|done].
  by case_decide.
Qed.

Section corridors.
Variable self : SubwaySystem.
Variable target : ref.
Variables fwd back : Station → option ref.
Hypothesis Hloop : ∀ s,
  [prev s; next s] = [fwd s; back s] ∨ [prev s; next s] = [back s; fwd s].

Lemma try_blocked rec o st :
  blocked self (visited st) o → try_neighbour self rec o st = Ok st.
Proof.
  intros Hb. destruct o as [r|]; simpl; [|done].
  by rewrite decide_True by by apply Hb.
Qed.

Lemma corridor_dfs c : ∀ fuel cur b st,
  corridor self target fwd back (visited st) cur c →
  length c < fuel →
  dfs fuel self target cur b st = Ok (walked self target cur b c st).
Proof.
  induction c as [|r c IH]; intros fuel cur b st Hc Hfuel;
    (destruct fuel as [|fuel]; [lia|]);
    destruct Hc as (Hline & Hnew & Hback & Hfwd);
    cbn [dfs]; unfold dfs_body; rewrite decide_False by done;
    unfold walked; cbn [ahead];
    (destruct (decide (id (obj self cur) = id (obj self target))) as [Hid|Hid];
     [ cbn [mbind outcome_mbind outcome_bind];
       change (accept self (enter self cur b st))
         with (noted self (current_path st ++ [(cur, b)])
                     (enter self cur b st));
       by apply leave_noted
     | rewrite decide_True by done ]).
  - (* the end of the line *)
    assert (for_each (try_neighbour self (dfs fuel self target))
              [prev (obj self cur); next (obj self cur)]
              (enter self cur b st) = Ok (enter self cur b st)) as ->.
    { assert (∀ o, o = fwd (obj self cur) ∨ o = back (obj self cur) →
                   try_neighbour self (dfs fuel self target) o
                     (enter self cur b st) = Ok (enter self cur b st)) as Ho.
      { intros o [-> | ->]; apply try_blocked.
        - rewrite Hfwd. by intros ? ?.
        - intros x Hx. simpl. apply elem_of_union_r. by apply Hback. }
      destruct (Hloop (obj self cur)) as [-> | ->]; cbn [for_each];
        rewrite !Ho by auto; cbn [mbind outcome_mbind outcome_bind];
        by rewrite ?Ho by auto. }
    cbn [mbind outcome_mbind outcome_bind]. by apply leave_entered.
  - destruct Hfwd as [Hfwd Hrest].
    pose proof (corridor_head _ _ _ _ _ _ _ Hrest) as (_ & Hr & _).
    assert (for_each (try_neighbour self (dfs fuel self target))
              [prev (obj self cur); next (obj self cur)]
              (enter self cur b st)
            = Ok (walked self target r false c (enter self cur b st))) as ->.
    { assert (∀ s, visited s = visited (enter self cur b st) →
                   try_neighbour self (dfs fuel self target)
                     (back (obj self cur)) s = Ok s) as Hb.
      { intros s Hs. apply try_blocked. intros x Hx. rewrite Hs. simpl.
        apply elem_of_union_r. by apply Hback. }
      assert (try_neighbour self (dfs fuel self target)
                (fwd (obj self cur)) (enter self cur b st)
              = Ok (walked self target r false c (enter self cur b st)))
        as Hf.
      { rewrite Hfwd. cbn [try_neighbour].
        rewrite decide_False by done. apply IH; [done|]. simpl in Hfuel. lia. }
      destruct (Hloop (obj self cur)) as [-> | ->]; cbn [for_each].
      - rewrite Hf. cbn [mbind outcome_mbind outcome_bind].
        rewrite Hb by apply walked_visited. done.
      - rewrite Hb by done. cbn [mbind outcome_mbind outcome_bind].
        rewrite Hf. done. }
    cbn [mbind outcome_mbind outcome_bind]. unfold walked.
    destruct (ahead self target r c) as [seg|]; cbn [fmap option_fmap option_map].
    + cbn [enter current_path]. rewrite <- app_assoc. cbn [app fmap list_fmap].
      by apply leave_noted.
    + by apply leave_entered.
Qed.

(** What [ahead] finds. *)
Lemma ahead_None cur c :
  (∀ x, x ∈ cur :: c → id (obj self x) ≠ id (obj self target)) →
  ahead self target cur c = None.
Proof.
  revert cur. induction c as [|r c IH]; intros cur Hno; cbn [ahead];
    rewrite decide_False by (apply Hno; left).
  - done.
  - rewrite IH; [done|]. intros x Hx. apply Hno. by right.
Qed.

Lemma ahead_Some cur c mid e post :
  cur :: c = mid ++ e :: post →
  (∀ x, x ∈ mid → id (obj self x) ≠ id (obj self target)) →
  id (obj self e) = id (obj self target) →
  ahead self target cur c = Some (tail (mid ++ [e])).
Proof.
  revert cur mid. induction c as [|r c IH]; intros cur mid Heq Hmid He.
  - destruct mid as [|m [|m' mid]]; simplify_eq/=.
    by rewrite decide_True.
  - destruct mid as [|m mid]; simpl in Heq; injection Heq as -> Heq.
    { simpl. by rewrite decide_True. }
    cbn [ahead]. rewrite decide_False by (apply Hmid; left).
    rewrite (IH r mid Heq); [|intros x Hx; apply Hmid; by right|done].
    destruct mid; by simplify_eq/=.
Qed.
End corridors.

Lemma load_id_inj (rows : list Row) (a b : ref) :
  NoDup (row_id <$> rows) → a < length rows → b < length rows →
  id (obj (load_from_csv init rows) a) = id (obj (load_from_csv init rows) b) →
  a = b.
Proof.
  intros Hnd Ha Hb Hid.
  destruct (lookup_lt_is_Some_2 rows a Ha) as [ra Hra].
  destruct (lookup_lt_is_Some_2 rows b Hb) as [rb Hrb].
  destruct (load_obj_fields rows a ra Hra) as [Hia _].
  destruct (load_obj_fields rows b rb Hrb) as [Hib _].
  eapply NoDup_lookup; [exact Hnd|..]; rewrite list_lookup_fmap.
  - by rewrite Hra.
  - rewrite Hrb. simpl. congruence.
Qed.

Section line_walk.
Variable rows : list Row.
Variable l : string.
Variable rs : list ref.
Hypothesis Hnd : NoDup (row_id <$> rows).
Hypothesis Hrs : dict_get (lines (load_from_csv init rows)) l = Some rs.

Lemma line_stop r :
  r ∈ rs → r < length rows ∧ line (obj (load_from_csv init rows) r) = l.
Proof.
  intros Hr.
  destruct (wf_lines _ (load_wf rows) l rs r Hrs Hr) as [Hlt Hline].
  by rewrite load_length in Hlt.
Qed.

Lemma line_ids_apart a b :
  a ∈ rs → b ∈ rs → a ≠ b →
  id (obj (load_from_csv init rows) a) ≠ id (obj (load_from_csv init rows) b).
Proof.
  intros Ha Hb Hne Hid. apply Hne.
  apply (load_id_inj rows); [done|by apply line_stop..|done].
Qed.

Lemma line_neighbours pre r post :
  rs = pre ++ r :: post →
  prev (obj (load_from_csv init rows) r) = last pre ∧
  next (obj (load_from_csv init rows) r) = head post.
Proof.
  intros Heq.
  assert (rs !! length pre = Some r) as Hr
    by (rewrite Heq; by apply list_lookup_middle).
  destruct (load_links_exact rows l rs (length pre) r Hrs Hr) as [-> ->].
  split.
  - rewrite last_lookup. destruct pre as [|x pre]; [done|].
    cbn [length pred]. rewrite Heq. apply lookup_app_l. simpl. lia.
  - rewrite Heq.
    replace (S (length pre)) with (length pre + 1) by lia.
    rewrite lookup_app_r by lia.
    replace (length pre + 1 - length pre) with 1 by lia.
    by destruct post.
Qed.

Lemma apart_of_NoDup pre r post x :
  rs = pre ++ r :: post → x ∈ pre ++ post →
  id (obj (load_from_csv init rows) x) ≠ id (obj (load_from_csv init rows) r).
Proof.
  intros Heq Hx. pose proof (load_line_NoDup rows l rs Hrs) as Hnd'.
  rewrite Heq in Hnd'.
  apply NoDup_app in Hnd' as (_ & Hpre & [Hpost _]%NoDup_cons).
  apply line_ids_apart; rewrite ?Heq.
  - apply elem_of_app in Hx as [?|?]; set_solver.
  - set_solver.
  - intros ->. apply elem_of_app in Hx as [Hx|Hx]; [|done].
    apply (Hpre r Hx). left.
Qed.

(** The stops after [r] on the line are a corridor along [next]. *)
Lemma up_corridor target post : ∀ pre r vis,
  line (obj (load_from_csv init rows) target) = l →
  rs = pre ++ r :: post →
  (∀ x, x ∈ r :: post → id (obj (load_from_csv init rows) x) ∉ vis) →
  blocked (load_from_csv init rows) vis (last pre) →
  corridor (load_from_csv init rows) target next prev vis r post.
Proof.
  induction post as [|r' post IH]; intros pre r vis Htarget Heq Hnew Hback;
    destruct (line_neighbours pre r _ Heq) as [Hprev Hnext];
    assert (r ∈ rs) as Hr by (rewrite Heq; set_solver);
    cbn [corridor]; rewrite Hprev, Hnext;
    (split; [destruct (line_stop r Hr); congruence|]);
    (split; [apply Hnew; left|]); (split; [done|]); [done|].
  split; [done|].
  apply (IH (pre ++ [r])); [done|..].
  - by rewrite <- app_assoc.
  - intros x Hx.
    apply not_elem_of_union. split; [|apply Hnew; by right].
    apply not_elem_of_singleton.
    apply (apart_of_NoDup pre r (r' :: post)); [done|].
    apply elem_of_app. by right.
  - rewrite last_snoc. intros x [= <-]. set_solver.
Qed.

(** The stops before [r] on the line, nearest first, are a corridor along
    [prev]. *)
Lemma down_corridor target c : ∀ pre r post vis,
  line (obj (load_from_csv init rows) target) = l →
  rs = pre ++ r :: post → reverse pre = c →
  (∀ x, x ∈ r :: pre → id (obj (load_from_csv init rows) x) ∉ vis) →
  blocked (load_from_csv init rows) vis (head post) →
  corridor (load_from_csv init rows) target prev next vis r c.
Proof.
  induction c as [|r' c IH];
    intros pre r post vis Htarget Heq Hrev Hnew Hback;
    destruct (line_neighbours pre r _ Heq) as [Hprev Hnext];
    assert (r ∈ rs) as Hr by (rewrite Heq; set_solver);
    assert (pre = reverse (reverse pre)) as Hpre
      by (by rewrite reverse_involutive);
    rewrite Hrev in Hpre;
    cbn [corridor]; rewrite Hprev, Hnext;
    (split; [destruct (line_stop r Hr); congruence|]);
    (split; [apply Hnew; left|]); (split; [done|]).
  { by rewrite Hpre. }
  rewrite reverse_cons in Hpre.
  split; [by rewrite Hpre, last_snoc|].
  apply (IH (reverse c) r' (r :: post)); [done|..].
  - by rewrite Heq, Hpre, <- app_assoc.
  - by rewrite reverse_involutive.
  - intros x Hx.
    apply not_elem_of_union. split.
    + apply not_elem_of_singleton.
      apply (apart_of_NoDup pre r post); [done|].
      apply elem_of_app. left. rewrite Hpre.
      apply elem_of_cons in Hx as [->|Hx]; set_solver.
    + apply Hnew. right. rewrite Hpre.
      apply elem_of_cons in Hx as [->|Hx]; set_solver.
  - simpl. intros x [= <-]. set_solver.
Qed.
End line_walk.

Section sides.
Variable self : SubwaySystem.
Variable target : ref.

Lemma walked_along_visited c st :
  visited (walked_along self target c st) = visited st.
Proof. destruct c; [done|apply walked_visited]. Qed.

Lemma walked_along_None c st :
  (∀ x, x ∈ c → id (obj self x) ≠ id (obj self target)) →
  walked_along self target c st = st.
Proof.
  intros Hno. destruct c as [|r c]; [done|]. unfold walked_along, walked.
  by rewrite ahead_None.
Qed.

Lemma walked_along_Some c mid e post st :
  c = mid ++ e :: post →
  (∀ x, x ∈ mid → id (obj self x) ≠ id (obj self target)) →
  id (obj self e) = id (obj self target) →
  walked_along self target c st
  = noted self (current_path st ++ ((λ r, (r, false)) <$> mid ++ [e])) st.
Proof.
  intros Heq Hmid He. destruct c as [|r c].
  { by destruct mid. }
  unfold walked_along, walked.
  rewrite (ahead_Some self target r c mid e post Heq Hmid He).
  do 2 f_equal.
  change ((r, false) :: ((λ r0, (r0, false)) <$> tail (mid ++ [e])))
    with ((λ r0 : ref, (r0, false)) <$> r :: tail (mid ++ [e])).
  f_equal. destruct mid; by simplify_eq/=.
Qed.

Lemma side_call (fwd back : Station → option ref) c o st fuel :
  (∀ s, [prev s; next s] = [fwd s; back s]
        ∨ [prev s; next s] = [back s; fwd s]) →
  o = head c →
  (∀ r c', c = r :: c' →
           corridor self target fwd back (visited st) r c') →
  length c ≤ fuel →
  try_neighbour self (dfs fuel self target) o st
  = Ok (walked_along self target c st).
Proof.
  intros Hloop -> Hc Hfuel. destruct c as [|r c]; [done|].
  pose proof (Hc r c eq_refl) as Hcor.
  destruct (corridor_head _ _ _ _ _ _ _ Hcor) as (_ & Hnew & _).
  cbn [head try_neighbour walked_along]. rewrite decide_False by done.
  apply (corridor_dfs self target fwd back Hloop); [done|]. simpl in Hfuel. lia.
Qed.
End sides.

Lemma noted_first self p :
  all_paths (noted self p init_search) = [p].
Proof. unfold noted. by rewrite decide_False by set_solver. Qed.

Section same_line.
Variable rows : list Row.
Variable l : string.
Variable rs : list ref.
Variables s e : ref.
Hypothesis Hnd : NoDup (row_id <$> rows).
Hypothesis Hrs : dict_get (lines (load_from_csv init rows)) l = Some rs.
Hypothesis Hs : s ∈ rs.
Hypothesis He : e ∈ rs.
Hypothesis Hse : s ≠ e.

Lemma same_line_dfs fuel pre post :
  rs = pre ++ s :: post → length rs ≤ fuel →
  ∃ st, dfs fuel (load_from_csv init rows) e s false init_search = Ok st ∧
    ∃ stops, all_paths st = [(λ r, (r, false)) <$> stops] ∧
      ((∃ mid rest, post = mid ++ e :: rest ∧ stops = s :: mid ++ [e]) ∨
       (∃ rest mid, pre = rest ++ e :: mid
                    ∧ stops = reverse (e :: mid ++ [s]))).
Proof.
  intros Heq Hfuel.
  pose proof (load_line_NoDup rows l rs Hrs) as Hnd'.
  destruct (line_stop rows l rs Hrs e He) as [_ Hel].
  destruct (line_stop rows l rs Hrs s Hs) as [_ Hsl].
  assert (id (obj (load_from_csv init rows) s)
          ≠ id (obj (load_from_csv init rows) e)) as Hid
    by (by apply (line_ids_apart rows l rs)).
  destruct fuel as [|fuel].
  { rewrite Heq, length_app in Hfuel. simpl in Hfuel. lia. }
  cbn [dfs]. unfold dfs_body.
  rewrite decide_False by set_solver.
  rewrite decide_False by done.
  rewrite decide_True by congruence.
  destruct (line_neighbours rows l rs Hrs pre s post Heq)
    as [Hprev Hnext].
  set (st1 := enter (load_from_csv init rows) s false init_search).
  assert (∀ st, visited st = visited st1 →
            try_neighbour (load_from_csv init rows)
              (dfs fuel (load_from_csv init rows) e)
              (prev (obj (load_from_csv init rows) s)) st
            = Ok (walked_along (load_from_csv init rows) e (reverse pre) st))
    as Hdown.
  { intros st Hvis. apply (side_call _ _ prev next); [by left|..].
    - rewrite Hprev. by rewrite <- (reverse_involutive pre) at 1;
        rewrite last_reverse.
    - intros r c Hc.
      assert (pre = reverse c ++ [r]) as Hpre.
      { rewrite <- (reverse_involutive pre), Hc. by rewrite reverse_cons. }
      apply (down_corridor rows l rs Hnd Hrs e c (reverse c) r
               (s :: post)); [done|..].
      + by rewrite Heq, Hpre, <- app_assoc.
      + by rewrite reverse_involutive.
      + intros x Hx. rewrite Hvis. simpl.
        apply not_elem_of_union. split; [|set_solver].
        apply not_elem_of_singleton.
        apply (apart_of_NoDup rows l rs Hnd Hrs pre s post); [done|].
        apply elem_of_app. left. rewrite Hpre.
        apply elem_of_cons in Hx as [->|Hx]; set_solver.
      + rewrite Hvis. simpl. intros x [= <-]. set_solver.
    - rewrite length_reverse. rewrite Heq, length_app in Hfuel.
      simpl in Hfuel. lia. }
  assert (∀ st, visited st = visited st1 →
            try_neighbour (load_from_csv init rows)
              (dfs fuel (load_from_csv init rows) e)
              (next (obj (load_from_csv init rows) s)) st
            = Ok (walked_along (load_from_csv init rows) e post st))
    as Hup.
  { intros st Hvis. apply (side_call _ _ next prev); [by right|done|..].
    - intros r c Hc.
      apply (up_corridor rows l rs Hnd Hrs e c (pre ++ [s]) r); [done|..].
      + by rewrite Heq, Hc, <- app_assoc.
      + intros x Hx. rewrite Hvis. simpl.
        apply not_elem_of_union. split; [|set_solver].
        apply not_elem_of_singleton.
        apply (apart_of_NoDup rows l rs Hnd Hrs pre s post); [done|].
        apply elem_of_app. right. by rewrite Hc.
      + rewrite last_snoc, Hvis. simpl. intros x [= <-]. set_solver.
    - rewrite Heq, length_app in Hfuel. simpl in Hfuel. lia. }
  cbn [for_each]. rewrite Hdown by done.
  cbn [mbind outcome_mbind outcome_bind].
  rewrite Hup by apply walked_along_visited.
  cbn [mbind outcome_mbind outcome_bind].
  assert (e ∈ pre ∨ e ∈ post) as [Hin|Hin].
  { rewrite Heq in He. set_solver. }
  - (* the target lies before the start *)
    apply list_elem_of_split in Hin as (rest & mid & Hpre).
    assert (rs = rest ++ e :: (mid ++ s :: post)) as Hsplit
      by (by rewrite Heq, Hpre, <- app_assoc).
    assert (reverse pre = reverse mid ++ e :: reverse rest) as Hrev.
    { by rewrite Hpre, reverse_app, reverse_cons, <- app_assoc. }
    rewrite (walked_along_Some _ e (reverse pre) (reverse mid) e
               (reverse rest) st1 Hrev); [| |done].
    2:{ intros x Hx. rewrite elem_of_reverse in Hx.
        apply (apart_of_NoDup rows l rs Hnd Hrs _ _ _ x Hsplit).
        set_solver. }
    rewrite walked_along_None.
    2:{ intros x Hx.
        apply (apart_of_NoDup rows l rs Hnd Hrs _ _ _ x Hsplit).
        set_solver. }
    unfold st1. rewrite leave_noted by set_solver.
    eexists. split; [done|]. rewrite noted_first.
    exists (s :: reverse mid ++ [e]). split.
    + simpl. done.
    + right. exists rest, mid. split; [done|].
      by rewrite reverse_cons, reverse_app, reverse_singleton.
  - apply list_elem_of_split in Hin as (mid & rest & Hpost).
    assert (rs = (pre ++ s :: mid) ++ e :: rest) as Hsplit
      by (by rewrite Heq, Hpost, <- app_assoc).
    rewrite (walked_along_None _ e (reverse pre)).
    2:{ intros x Hx. rewrite elem_of_reverse in Hx.
        apply (apart_of_NoDup rows l rs Hnd Hrs _ _ _ x Hsplit).
        rewrite !elem_of_app. by do 2 left. }
    rewrite (walked_along_Some _ e post mid e rest st1 Hpost); [| |done].
    2:{ intros x Hx.
        apply (apart_of_NoDup rows l rs Hnd Hrs _ _ _ x Hsplit).
        rewrite !elem_of_app, elem_of_cons. left. right. by right. }
    unfold st1. rewrite leave_noted by set_solver.
    eexists. split; [done|]. rewrite noted_first.
    exists (s :: mid ++ [e]). split; [done|].
    left. by exists mid, rest.
Qed.
End same_line.

(** X14. On a loaded network with pairwise distinct ids, a query between
    two stations of one line returns exactly one route: the stretch of the
    line from the start to the end, walked forwards or backwards, with no
    stop marked as a transfer.  A call stack as deep as the line is long
    is enough. *)
Theorem same_line_route (rows : list Row) (fuel : nat) (l : string)
    (rs : list ref) (sn en : string) (s e : ref) :
  let g := load_from_csv init rows in
  NoDup (row_id <$> rows) →
  dict_get (lines g) l = Some rs →
  first_named g rs sn = Some s → first_named g rs en = Some e →
  length rs ≤ fuel →
  ∃ stops,
    find_route_with fuel g l sn l en = Ok [(λ r, (r, false)) <$> stops] ∧
    head stops = Some s ∧ last stops = Some e ∧
    ∃ pre post, rs = pre ++ stops ++ post ∨ rs = pre ++ reverse stops ++ post.
Proof.
  intros g Hnd Hrs Hs He Hfuel. subst g.
  pose proof (first_named_Some _ _ _ _ Hs) as [Hsin _].
  pose proof (first_named_Some _ _ _ _ He) as [Hein _].
  destruct (list_elem_of_split _ _ Hsin) as (pre & post & Heq).
  destruct (decide (s = e)) as [<-|Hse].
  - exists [s]. destruct fuel as [|fuel].
    { rewrite Heq, length_app in Hfuel. simpl in Hfuel. lia. }
    split; [|split; [done|split; [done|]]].
    + apply (same_id_single (load_from_csv init rows) l sn l en s s);
        [unfold resolve; rewrite Hrs; exact Hs
        |unfold resolve; rewrite Hrs; exact He
        |done].
    + exists pre, post. by left.
  - destruct (same_line_dfs rows l rs s e Hnd Hrs Hsin Hein Hse fuel pre post
                Heq Hfuel) as (st & Hdfs & stops & Hall & Hstops).
    exists stops. split.
    { unfold find_route_with. rewrite Hrs, Hs, He, Hdfs. simpl.
      by rewrite Hall. }
    destruct Hstops as [(mid & rest & -> & ->)|(rest & mid & -> & ->)].
    + split; [done|]. split; [by rewrite app_comm_cons, last_snoc|].
      exists pre, rest. left. rewrite Heq. simpl.
      by rewrite <- app_assoc.
    + rewrite reverse_involutive.
      split; [by rewrite reverse_cons, reverse_app|].
      split; [by rewrite last_reverse|].
      exists rest, post. right. rewrite Heq. simpl.
      by rewrite <- !app_assoc.
Qed.

Lemma same_line_route_witness :
  ∃ stops,
    find_route_with 3 (load_from_csv init scenario_rows) "A" "Z" "A" "X"
    = Ok [(λ r, (r, false)) <$> stops] ∧
    head stops = Some 2 ∧ last stops = Some 0 ∧
    ∃ pre post, [0; 1; 2] = pre ++ stops ++ post
                ∨ [0; 1; 2] = pre ++ reverse stops ++ post.
Proof.
  apply (same_line_route scenario_rows 3 "A" [0; 1; 2] "Z" "X" 2 0).
  - apply (bool_decide_unpack _). by vm_compute.
  - by vm_compute.
  - by vm_compute.
  - by vm_compute.
  - simpl. lia.
Defined.
